(** * The authorization cache of pkg/project/auth/cache.go

    A shallow embedding of the reconciliation loop that keeps the review
    record store and the two subject record stores of [AuthorizationCache]
    in step with the upstream listers, together with the properties the
    specification states about it.

    Conventions of the embedding:
    - a [cache.Store] built by [cache.NewStore keyFn] is a finite map from
      the key computed by [keyFn] to the stored object; the store holds
      pointers, so a mutation made through a pointer obtained from
      [GetByKey] is a write at the key the pointer was found under;
    - a [sets.String] that is shared between several variables lives in a
      heap of string sets and is named by its address;
    - a Go [error] is its message;
    - the reviewer, the listers and the informer-backed namespace store are
      collaborators outside the file: they are operations on an abstract
      world [W], threaded through every call. *)

From stdpp Require Import gmap strings list sorting fin_maps.

(** ** Go library functions used by the file *)

Definition error := string.

Inductive Result (A : Type) : Type :=
| Ok (a : A)
| Err (e : error).
Arguments Ok {A} a.
Arguments Err {A} e.

(** [strings.Join]: the first element, then the separator and the next
    element for every further one. *)
Definition strings_Join (elems : list string) (sep : string) : string :=
  match elems with
  | [] => ""
  | e :: rest => fold_left (fun b s => b +:+ sep +:+ s) rest e
  end.

(** [sets.String.List]: the members as a sorted slice.  Go compares strings
    byte by byte, as [String.le] does. *)
Definition sets_List (s : gset string) : list string :=
  merge_sort String.le (elements s).

(** [sets.NewString(items...)] *)
Definition sets_NewString (items : list string) : gset string :=
  list_to_set items.

(** ** Records *)

(** subjectRecord is a cache record for the set of namespaces a subject can
    access. *)
Record subjectRecord := {
  subject : string;
  namespaces : gset string;
}.

(** reviewRequest is the resource we want to review.  A nil map and an
    empty map read alike and the request maps are never written, so both
    are the empty map. *)
Record reviewRequest := {
  namespace : string;
  namespaceResourceVersion : string;
  policyUIDToResourceVersion : gmap string string;
  policyBindingUIDToResourceVersion : gmap string string;
}.

(** reviewRecord embeds a [*reviewRequest]; every record the file builds
    has a non-nil one. *)
Record reviewRecord := {
  request_of : reviewRequest;
  users : list string;
  groups : list string;
}.

Definition reviewRecordKeyFn (r : reviewRecord) : string :=
  namespace (request_of r).

Definition subjectRecordKeyFn (r : subjectRecord) : string := subject r.

(** The result of a review: [Users()], [Groups()], [EvaluationError()]. *)
Record Review := {
  Users : list string;
  Groups : list string;
  EvaluationError : string;
}.

(** The fields of the API objects the cache reads. *)
Record Namespace := {
  ns_Name : string;
  ns_ResourceVersion : string;
}.

Record Policy := {
  p_Namespace : string;
  p_UID : string;
  p_ResourceVersion : string;
}.

Record PolicyBinding := {
  pb_Namespace : string;
  pb_UID : string;
  pb_ResourceVersion : string;
}.

Record ClusterPolicy := { cp_ResourceVersion : string }.
Record ClusterPolicyBinding := { cpb_ResourceVersion : string }.

Record userInfo := {
  GetName : string;
  GetGroups : list string;
  GetScopes : list string;
}.

(** ** cache.Store *)

Module Store.
Section ops.
Context {A : Type} (keyFn : A -> string).

Definition Add (obj : A) (s : gmap string A) : gmap string A :=
  <[keyFn obj := obj]> s.

Definition Delete (obj : A) (s : gmap string A) : gmap string A :=
  delete (keyFn obj) s.

(** [GetByKey] answers [item, exists, err]: [Ok (Some item)] when the
    key exists, [Ok None] when it does not; the thread-safe store never
    answers an error. *)
Definition GetByKey (s : gmap string A) (key : string)
  : Result (option A) :=
  Ok (s !! key).

Definition List (s : gmap string A) : list A := (map_to_list s).*2.
End ops.
End Store.

Abbreviation SubjectStore := (gmap string subjectRecord).
Abbreviation ReviewStore := (gmap string reviewRecord).

(** ** The skip oracle *)

Section Versioners.
Context {W : Type}.

(** LastSyncResourceVersioner is any object that can divulge a
    LastSyncResourceVersion; the token is read off the world. *)
Definition LastSyncResourceVersioner := W -> string.

Definition unchangingLastSyncResourceVersioner : LastSyncResourceVersioner :=
  fun _ => "0".

Definition unionLastSyncResourceVersioner
    (u : list LastSyncResourceVersioner) : LastSyncResourceVersioner :=
  fun w =>
    let resourceVersions :=
      fold_left (fun acc versioner => (acc ++ [versioner w])%list) u [] in
    strings_Join resourceVersions "".

Inductive skipSynchronizer :=
| statelessSkipSynchronizer
| neverSkipSynchronizer.

Definition stateless_SkipSynchronize (prevState : string)
    (versionedObjects : list LastSyncResourceVersioner) (w : W)
  : bool * string :=
  let resourceVersions :=
    fold_left (fun acc v => (acc ++ [v w])%list) versionedObjects [] in
  let currentState := strings_Join resourceVersions "," in
  let skip := bool_decide (currentState = prevState) in
  (skip, currentState).

Definition never_SkipSynchronize (prevState : string)
    (versionedObjects : list LastSyncResourceVersioner) (w : W)
  : bool * string :=
  (false, "").

Definition SkipSynchronize (s : skipSynchronizer) :=
  match s with
  | statelessSkipSynchronizer => stateless_SkipSynchronize
  | neverSkipSynchronizer => never_SkipSynchronize
  end.
End Versioners.
Arguments LastSyncResourceVersioner : clear implicits.

(** ** Review dispatch *)

(** skipReview returns true if the request was satisfied by the lastKnown.
    Ranging over a request map stops at the first entry that is new or has
    another version. *)
Definition skipReview (request : option reviewRequest)
    (lastKnownValue : option reviewRecord) : bool :=
  match request with
  | None => true
  | Some request =>
    match lastKnownValue with
    | None => false
    | Some lastKnownValue =>
      if negb (bool_decide (namespace request
                            = namespace (request_of lastKnownValue)))
      then false
      else if bool_decide (0 < String.length (namespaceResourceVersion request))
              && negb (bool_decide
                         (namespaceResourceVersion request
                          = namespaceResourceVersion (request_of lastKnownValue)))
      then false
      else if negb (forallb
                (fun kv =>
                   match policyBindingUIDToResourceVersion
                           (request_of lastKnownValue) !! kv.1 with
                   | Some oldValue => bool_decide (kv.2 = oldValue)
                   | None => false
                   end)
                (map_to_list (policyBindingUIDToResourceVersion request)))
      then false
      else if negb (forallb
                (fun kv =>
                   match policyUIDToResourceVersion
                           (request_of lastKnownValue) !! kv.1 with
                   | Some oldValue => bool_decide (kv.2 = oldValue)
                   | None => false
                   end)
                (map_to_list (policyUIDToResourceVersion request)))
      then false
      else true
    end
  end.

Definition sets_Insert (s : gset string) (items : list string) : gset string :=
  fold_left (fun s item => s ∪ {[item]}) items s.

Definition sets_Delete (s : gset string) (items : list string) : gset string :=
  fold_left (fun s item => s ∖ {[item]}) items s.

Definition sets_HasAll (s : gset string) (items : list string) : bool :=
  forallb (fun item => bool_decide (item ∈ s)) items.

Definition with_namespaces (r : subjectRecord) (ns : gset string)
  : subjectRecord :=
  {| subject := subject r; namespaces := ns |}.

(** deleteNamespaceFromSubjects removes the namespace from each subject; if
    no other namespaces are active to that subject, it also deletes the
    subject from the cache entirely. *)
Definition deleteNamespaceFromSubject (namespace : string)
    (subjectRecordStore : SubjectStore) (subject : string) : SubjectStore :=
  match Store.GetByKey subjectRecordStore subject with
  | Ok (Some subjectRecord) =>
    let subjectRecord :=
      with_namespaces subjectRecord (namespaces subjectRecord ∖ {[namespace]}) in
    let subjectRecordStore := <[subject := subjectRecord]> subjectRecordStore in
    if bool_decide (size (namespaces subjectRecord) = 0)
    then Store.Delete subjectRecordKeyFn subjectRecord subjectRecordStore
    else subjectRecordStore
  | _ => subjectRecordStore
  end.

Definition deleteNamespaceFromSubjects (subjectRecordStore : SubjectStore)
    (subjects : list string) (namespace : string) : SubjectStore :=
  fold_left (deleteNamespaceFromSubject namespace) subjects subjectRecordStore.

(** addSubjectsToNamespace adds the specified namespace to each subject. *)
Definition addSubjectToNamespace (namespace : string)
    (subjectRecordStore : SubjectStore) (subject : string) : SubjectStore :=
  match Store.GetByKey subjectRecordStore subject with
  | Ok (Some item) =>
    <[subject := with_namespaces item (namespaces item ∪ {[namespace]})]>
      subjectRecordStore
  | _ =>
    let item := {| subject := subject; namespaces := sets_NewString [] |} in
    let subjectRecordStore :=
      Store.Add subjectRecordKeyFn item subjectRecordStore in
    <[subjectRecordKeyFn item :=
        with_namespaces item (namespaces item ∪ {[namespace]})]>
      subjectRecordStore
  end.

Definition addSubjectsToNamespace (subjectRecordStore : SubjectStore)
    (subjects : list string) (namespace : string) : SubjectStore :=
  fold_left (addSubjectToNamespace namespace) subjects subjectRecordStore.

(** cacheReviewRecord updates the cache based on the request processed. *)
Definition cacheReviewRecord (request : reviewRequest)
    (lastKnownValue : option reviewRecord) (review : Review)
    (reviewRecordStore : ReviewStore) : ReviewStore :=
  let rv := "" in
  let policies : gmap string string := ∅ in
  let bindings : gmap string string := ∅ in
  (* keep what we last believe we knew by default *)
  let '(rv, policies, bindings) :=
    match lastKnownValue with
    | Some lastKnownValue =>
      (namespaceResourceVersion (request_of lastKnownValue),
       map_fold (fun k v m => <[k := v]> m) policies
         (policyUIDToResourceVersion (request_of lastKnownValue)),
       map_fold (fun k v m => <[k := v]> m) bindings
         (policyBindingUIDToResourceVersion (request_of lastKnownValue)))
    | None => (rv, policies, bindings)
    end in
  (* update the review record relative to what drove this request *)
  let rv :=
    if bool_decide (0 < String.length (namespaceResourceVersion request))
    then namespaceResourceVersion request else rv in
  let policies :=
    map_fold (fun k v m => <[k := v]> m) policies
      (policyUIDToResourceVersion request) in
  let bindings :=
    map_fold (fun k v m => <[k := v]> m) bindings
      (policyBindingUIDToResourceVersion request) in
  let reviewRecord :=
    {| request_of :=
         {| namespace := namespace request;
            namespaceResourceVersion := rv;
            policyUIDToResourceVersion := policies;
            policyBindingUIDToResourceVersion := bindings |};
       users := Users review;
       groups := Groups review |} in
  (* update the cache record *)
  Store.Add reviewRecordKeyFn reviewRecord reviewRecordStore.

Definition lastKnown (reviewRecordStore : ReviewStore) (namespace : string)
  : Result (option reviewRecord) :=
  match Store.GetByKey reviewRecordStore namespace with
  | Err err => Err err
  | Ok (Some obj) => Ok (Some obj)
  | Ok None => Ok None
  end.

(** ** The cache and its surroundings *)

(** What a watcher is told by [GroupMembershipChanged]. *)
Record Notification := {
  n_namespace : string;
  n_users : gset string;
  n_groups : gset string;
}.

(** A watcher is the sequence of notifications it has received. *)
Definition CacheWatcher := list Notification.

Definition GroupMembershipChanged (namespace : string)
    (users groups : gset string) (watcher : CacheWatcher) : CacheWatcher :=
  (watcher ++ [{| n_namespace := namespace; n_users := users;
                  n_groups := groups |}])%list.

Record Stores := {
  userSubjectRecordStore : SubjectStore;
  groupSubjectRecordStore : SubjectStore;
  reviewRecordStore : ReviewStore;
}.

(** Three stores from [cache.NewStore]. *)
Definition NewStores : Stores :=
  {| userSubjectRecordStore := ∅; groupSubjectRecordStore := ∅;
     reviewRecordStore := ∅ |}.

(** The collaborators the cache is constructed with.  A call may change the
    world; reading a version token or the namespace store does not. *)
Class Collaborators (W : Type) := {
  reviewer_Review : string -> W -> Result Review * W;
  namespaceStore_List : W -> list Namespace * W;
  namespaceStore_GetByKey : string -> W -> Result (option Namespace);
  namespaces_LastSyncResourceVersion : LastSyncResourceVersioner W;
  clusterPolicyLister_List : W -> Result (list ClusterPolicy) * W;
  clusterPolicyLister_LastSyncResourceVersion : LastSyncResourceVersioner W;
  clusterPolicyBindingLister_List : W -> Result (list ClusterPolicyBinding) * W;
  clusterPolicyBindingLister_LastSyncResourceVersion :
    LastSyncResourceVersioner W;
  policyNamespacer_List : W -> Result (list Policy) * W;
  policyNamespacer_LastSyncResourceVersion : LastSyncResourceVersioner W;
  policyBindingNamespacer_List : W -> Result (list PolicyBinding) * W;
  policyBindingNamespacer_LastSyncResourceVersion : LastSyncResourceVersioner W;
  ScopesToVisibleNamespaces : list string -> W -> Result (gset string);
}.

(** AuthorizationCache maintains a cache on the set of namespaces a user or
    group can access.  The two cluster version sets are addresses into
    [stringSets]. *)
Record AuthorizationCache := {
  allKnownNamespaces : gset string;
  live : Stores;
  clusterBindingResourceVersions : nat;
  clusterPolicyResourceVersions : nat;
  skip : skipSynchronizer;
  lastState : string;
  watchers : list CacheWatcher;
}.

Record Machine (W : Type) := {
  ac : AuthorizationCache;
  stringSets : list (gset string);
  world : W;
  handledErrors : list error;
}.
Arguments ac {W} m.
Arguments stringSets {W} m.
Arguments world {W} m.
Arguments handledErrors {W} m.

Section Cache.
Context {W : Type} `{!Collaborators W}.

Definition set_world (w : W) (m : Machine W) : Machine W :=
  {| ac := ac m; stringSets := stringSets m; world := w;
     handledErrors := handledErrors m |}.

Definition set_ac (a : AuthorizationCache) (m : Machine W) : Machine W :=
  {| ac := a; stringSets := stringSets m; world := world m;
     handledErrors := handledErrors m |}.

Definition set_stringSets (h : list (gset string)) (m : Machine W)
  : Machine W :=
  {| ac := ac m; stringSets := h; world := world m;
     handledErrors := handledErrors m |}.

Definition set_watchers (ws : list CacheWatcher) (a : AuthorizationCache)
  : AuthorizationCache :=
  {| allKnownNamespaces := allKnownNamespaces a; live := live a;
     clusterBindingResourceVersions := clusterBindingResourceVersions a;
     clusterPolicyResourceVersions := clusterPolicyResourceVersions a;
     skip := skip a; lastState := lastState a; watchers := ws |}.

Definition set_clusterPolicyResourceVersions (l : nat)
    (a : AuthorizationCache) : AuthorizationCache :=
  {| allKnownNamespaces := allKnownNamespaces a; live := live a;
     clusterBindingResourceVersions := clusterBindingResourceVersions a;
     clusterPolicyResourceVersions := l;
     skip := skip a; lastState := lastState a; watchers := watchers a |}.

Definition set_clusterBindingResourceVersions (l : nat)
    (a : AuthorizationCache) : AuthorizationCache :=
  {| allKnownNamespaces := allKnownNamespaces a; live := live a;
     clusterBindingResourceVersions := l;
     clusterPolicyResourceVersions := clusterPolicyResourceVersions a;
     skip := skip a; lastState := lastState a; watchers := watchers a |}.

(** [utilruntime.HandleError] *)
Definition HandleError (err : error) (m : Machine W) : Machine W :=
  {| ac := ac m; stringSets := stringSets m; world := world m;
     handledErrors := (handledErrors m ++ [err])%list |}.

Definition notifyWatchers (namespace : string) (exists_ : option reviewRecord)
    (users groups : gset string) (m : Machine W) : Machine W :=
  set_ac
    (set_watchers
       (GroupMembershipChanged namespace users groups <$> watchers (ac m))
       (ac m))
    m.

(** syncRequest takes a reviewRequest and determines if it should update
    the caches supplied.  The request is dereferenced on entry, so it is
    not nil. *)
Definition syncRequest (request : reviewRequest) (stores : Stores)
    (m : Machine W) : option error * Stores * Machine W :=
  match lastKnown (reviewRecordStore stores) (namespace request) with
  | Err err => (Some err, stores, m)
  | Ok lastKnownValue =>
    if skipReview (Some request) lastKnownValue then (None, stores, m)
    else
      let namespace := namespace request in
      let '(review, w) := reviewer_Review namespace (world m) in
      let m := set_world w m in
      match review with
      | Err err => (Some err, stores, m)
      | Ok review =>
        let usersToRemove : gset string := sets_NewString [] in
        let groupsToRemove : gset string := sets_NewString [] in
        let '(usersToRemove, groupsToRemove) :=
          match lastKnownValue with
          | Some lastKnownValue =>
            (sets_Delete (sets_Insert usersToRemove (users lastKnownValue))
               (Users review),
             sets_Delete (sets_Insert groupsToRemove (groups lastKnownValue))
               (Groups review))
          | None => (usersToRemove, groupsToRemove)
          end in
        let userStore :=
          deleteNamespaceFromSubjects (userSubjectRecordStore stores)
            (sets_List usersToRemove) namespace in
        let groupStore :=
          deleteNamespaceFromSubjects (groupSubjectRecordStore stores)
            (sets_List groupsToRemove) namespace in
        let userStore :=
          addSubjectsToNamespace userStore (Users review) namespace in
        let groupStore :=
          addSubjectsToNamespace groupStore (Groups review) namespace in
        let reviewStore :=
          cacheReviewRecord request lastKnownValue review
            (reviewRecordStore stores) in
        let m :=
          notifyWatchers namespace lastKnownValue
            (sets_NewString (Users review)) (sets_NewString (Groups review))
            m in
        let stores := {| userSubjectRecordStore := userStore;
                    groupSubjectRecordStore := groupStore;
                    reviewRecordStore := reviewStore |} in
        if bool_decide (0 < String.length (EvaluationError review))
        then (Some (EvaluationError review), stores, m)
        else (None, stores, m)
      end
  end.

(** The body shared by the three passes: hand the request to the sync
    handler and log what it returns. *)
Definition dispatch (request : reviewRequest) (sm : Stores * Machine W)
  : Stores * Machine W :=
  let '(err, stores, m) := syncRequest request sm.1 sm.2 in
  match err with
  | Some err => (stores, HandleError ("error synchronizing: " +:+ err) m)
  | None => (stores, m)
  end.

(** synchronizeNamespaces synchronizes access over each namespace and
    returns a set of namespace names that were looked at in last sync. *)
Definition synchronizeNamespaces (stores : Stores) (m : Machine W)
  : gset string * Stores * Machine W :=
  let namespaceSet : gset string := sets_NewString [] in
  let '(items, w) := namespaceStore_List (world m) in
  let m := set_world w m in
  let '(namespaceSet, sm) :=
    fold_left
      (fun '(namespaceSet, sm) namespace =>
         (namespaceSet ∪ {[ns_Name namespace]},
          dispatch
            {| namespace := ns_Name namespace;
               namespaceResourceVersion := ns_ResourceVersion namespace;
               policyUIDToResourceVersion := ∅;
               policyBindingUIDToResourceVersion := ∅ |}
            sm))
      items (namespaceSet, (stores, m)) in
  (namespaceSet, sm.1, sm.2).

(** synchronizePolicies synchronizes access over each policy. *)
Definition synchronizePolicies (stores : Stores) (m : Machine W)
  : Stores * Machine W :=
  let '(policyList, w) := policyNamespacer_List (world m) in
  let m := set_world w m in
  match policyList with
  | Err err => (stores, HandleError err m)
  | Ok policyList =>
    fold_left
      (fun sm policy =>
         dispatch
           {| namespace := p_Namespace policy;
              namespaceResourceVersion := "";
              policyUIDToResourceVersion :=
                {[p_UID policy := p_ResourceVersion policy]};
              policyBindingUIDToResourceVersion := ∅ |}
           sm)
      policyList (stores, m)
  end.

(** synchronizePolicyBindings synchronizes access over each policy
    binding. *)
Definition synchronizePolicyBindings (stores : Stores) (m : Machine W)
  : Stores * Machine W :=
  let '(policyBindingList, w) := policyBindingNamespacer_List (world m) in
  let m := set_world w m in
  match policyBindingList with
  | Err err => (stores, HandleError err m)
  | Ok policyBindingList =>
    fold_left
      (fun sm policyBinding =>
         dispatch
           {| namespace := pb_Namespace policyBinding;
              namespaceResourceVersion := "";
              policyUIDToResourceVersion := ∅;
              policyBindingUIDToResourceVersion :=
                {[pb_UID policyBinding := pb_ResourceVersion policyBinding]} |}
           sm)
      policyBindingList (stores, m)
  end.

(** The loop of purgeDeletedNamespaces over the snapshot
    [reviewRecordStore.List()]. *)
Definition purgeReviewRecord (newNamespaces : gset string) (stores : Stores)
    (reviewRecord : reviewRecord) : Stores :=
  if negb (bool_decide (namespace (request_of reviewRecord) ∈ newNamespaces))
  then
    {| userSubjectRecordStore :=
         deleteNamespaceFromSubjects (userSubjectRecordStore stores)
           (users reviewRecord) (namespace (request_of reviewRecord));
       groupSubjectRecordStore :=
         deleteNamespaceFromSubjects (groupSubjectRecordStore stores)
           (groups reviewRecord) (namespace (request_of reviewRecord));
       reviewRecordStore :=
         Store.Delete reviewRecordKeyFn reviewRecord (reviewRecordStore stores) |}
  else stores.

(** purgeDeletedNamespaces with the snapshot of the review records made
    explicit: a Go map is listed in no particular order. *)
Definition purgeDeletedNamespacesFrom (reviewRecordItems : list reviewRecord)
    (oldNamespaces newNamespaces : gset string) (stores : Stores) (m : Machine W)
  : Stores * Machine W :=
  let stores := fold_left (purgeReviewRecord newNamespaces) reviewRecordItems stores in
  let m :=
    fold_left
      (fun m namespace =>
         notifyWatchers namespace None (∅ : gset string) (∅ : gset string) m)
      (elements (oldNamespaces ∖ newNamespaces)) m in
  (stores, m).

(** purgeDeletedNamespaces will remove all namespaces enumerated in a
    reviewRecordStore that are not in the namespace set. *)
Definition purgeDeletedNamespaces (oldNamespaces newNamespaces : gset string)
    (stores : Stores) (m : Machine W) : Stores * Machine W :=
  purgeDeletedNamespacesFrom (Store.List (reviewRecordStore stores))
    oldNamespaces newNamespaces stores m.

Definition set_live (stores : Stores) (a : AuthorizationCache)
  : AuthorizationCache :=
  {| allKnownNamespaces := allKnownNamespaces a; live := stores;
     clusterBindingResourceVersions := clusterBindingResourceVersions a;
     clusterPolicyResourceVersions := clusterPolicyResourceVersions a;
     skip := skip a; lastState := lastState a; watchers := watchers a |}.

Definition set_allKnownNamespaces (s : gset string) (a : AuthorizationCache)
  : AuthorizationCache :=
  {| allKnownNamespaces := s; live := live a;
     clusterBindingResourceVersions := clusterBindingResourceVersions a;
     clusterPolicyResourceVersions := clusterPolicyResourceVersions a;
     skip := skip a; lastState := lastState a; watchers := watchers a |}.

Definition set_lastState (s : string) (a : AuthorizationCache)
  : AuthorizationCache :=
  {| allKnownNamespaces := allKnownNamespaces a; live := live a;
     clusterBindingResourceVersions := clusterBindingResourceVersions a;
     clusterPolicyResourceVersions := clusterPolicyResourceVersions a;
     skip := skip a; lastState := s; watchers := watchers a |}.

Definition set_skip (s : skipSynchronizer) (a : AuthorizationCache)
  : AuthorizationCache :=
  {| allKnownNamespaces := allKnownNamespaces a; live := live a;
     clusterBindingResourceVersions := clusterBindingResourceVersions a;
     clusterPolicyResourceVersions := clusterPolicyResourceVersions a;
     skip := s; lastState := lastState a; watchers := watchers a |}.

(** The test both halves of invalidateCache make: the stored set and the
    temporary one differ in length, or the stored one misses a member. *)
Definition versionsChanged (stored temporary : gset string) : bool :=
  negb (bool_decide (size stored = size temporary))
  || negb (sets_HasAll stored (sets_List temporary)).

(** invalidateCache returns true if there was a change in the cluster
    namespace that holds cluster policy and policy bindings.
    [temporaryVersions] is the address of the set made by
    [sets.NewString()]; assigning it to a field of the cache copies the
    address, not the set. *)
Definition invalidateCache (m : Machine W) : bool * Machine W :=
  let invalidateCache := false in
  let '(clusterPolicyList, w) := clusterPolicyLister_List (world m) in
  let m := set_world w m in
  match clusterPolicyList with
  | Err err => (invalidateCache, HandleError err m)
  | Ok clusterPolicyList =>
    let temporaryVersions := length (stringSets m) in
    let h := (stringSets m ++ [sets_NewString []])%list in
    let h :=
      fold_left
        (fun h clusterPolicy =>
           alter (fun s => s ∪ {[cp_ResourceVersion clusterPolicy]})
             temporaryVersions h)
        clusterPolicyList h in
    let '(invalidateCache, a) :=
      if versionsChanged (h !!! clusterPolicyResourceVersions (ac m))
           (h !!! temporaryVersions)
      then (true, set_clusterPolicyResourceVersions temporaryVersions (ac m))
      else (invalidateCache, ac m) in
    let m := set_stringSets h (set_ac a m) in
    let '(clusterPolicyBindingList, w) :=
      clusterPolicyBindingLister_List (world m) in
    let m := set_world w m in
    match clusterPolicyBindingList with
    | Err err => (invalidateCache, HandleError err m)
    | Ok clusterPolicyBindingList =>
      let h :=
        alter (fun s => sets_Delete s (sets_List s)) temporaryVersions h in
      let h :=
        fold_left
          (fun h clusterPolicyBinding =>
             alter (fun s => s ∪ {[cpb_ResourceVersion clusterPolicyBinding]})
               temporaryVersions h)
          clusterPolicyBindingList h in
      let '(invalidateCache, a) :=
        if versionsChanged (h !!! clusterBindingResourceVersions (ac m))
             (h !!! temporaryVersions)
        then (true,
              set_clusterBindingResourceVersions temporaryVersions (ac m))
        else (invalidateCache, ac m) in
      (invalidateCache, set_stringSets h (set_ac a m))
    end
  end.

Definition policyLastSyncResourceVersioner : LastSyncResourceVersioner W :=
  unionLastSyncResourceVersioner
    [clusterPolicyLister_LastSyncResourceVersion;
     clusterPolicyBindingLister_LastSyncResourceVersion;
     policyNamespacer_LastSyncResourceVersion;
     policyBindingNamespacer_LastSyncResourceVersion].

(** synchronize runs a full synchronization over the cache data.  During
    an incremental cycle the working stores are the live stores
    themselves; after a rebuild they are three new stores that replace the
    live ones when the passes are done.  Either way the live stores hold
    the contents of the working stores when the cycle ends. *)
Definition synchronize (m : Machine W) : Machine W :=
  let '(skip_, currentState) :=
    SkipSynchronize (skip (ac m)) (lastState (ac m))
      [namespaces_LastSyncResourceVersion; policyLastSyncResourceVersioner]
      (world m) in
  if skip_ then m
  else
    let stores := live (ac m) in
    let '(invalidateCache, m) := invalidateCache m in
    let stores := if invalidateCache then NewStores else stores in
    let '(newKnownNamespaces, stores, m) := synchronizeNamespaces stores m in
    let '(stores, m) := synchronizePolicies stores m in
    let '(stores, m) := synchronizePolicyBindings stores m in
    let '(stores, m) :=
      purgeDeletedNamespaces (allKnownNamespaces (ac m)) newKnownNamespaces
        stores m in
    let a := set_live stores (ac m) in
    let a := set_allKnownNamespaces newKnownNamespaces a in
    let a := set_lastState currentState a in
    set_ac a m.

(** Run begins watching and synchronizing the cache: it selects the
    stateless skip oracle; the ticker it starts calls [synchronize] once per
    period. *)
Definition Run (m : Machine W) : Machine W :=
  set_ac (set_skip statelessSkipSynchronizer (ac m)) m.

(** AddWatcher appends the watcher, here one that has received nothing. *)
Definition AddWatcher (m : Machine W) : Machine W :=
  set_ac (set_watchers (watchers (ac m) ++ [[]])%list (ac m)) m.

Definition ReadyForAccess (m : Machine W) : bool :=
  bool_decide (0 < String.length (lastState (ac m))).

(** The namespaces of the subject record under [key], when it exists; a
    lookup error is not looked at. *)
Definition gather (subjectRecordStore : SubjectStore) (keys : gset string)
    (key : string) : gset string :=
  match Store.GetByKey subjectRecordStore key with
  | Ok (Some subjectRecord) =>
    sets_Insert keys (sets_List (namespaces subjectRecord))
  | _ => keys
  end.

Fixpoint List_items (allowedNamespaces : gset string) (w : W)
    (keys : list string) (items : list Namespace)
  : Result (list Namespace) :=
  match keys with
  | [] => Ok items
  | key :: keys =>
    match namespaceStore_GetByKey key w with
    | Err err => Err err
    | Ok (Some namespace) =>
      if bool_decide ("*" ∈ allowedNamespaces)
         || bool_decide (ns_Name namespace ∈ allowedNamespaces)
      then List_items allowedNamespaces w keys (items ++ [namespace])%list
      else List_items allowedNamespaces w keys items
    | Ok None => List_items allowedNamespaces w keys items
    end
  end.

(** List returns the set of namespace names the user has access to
    view. *)
Definition List (m : Machine W) (userInfo : userInfo)
  : Result (list Namespace) :=
  let keys : gset string := ∅ in
  let user := GetName userInfo in
  let groups := GetGroups userInfo in
  let keys := gather (userSubjectRecordStore (live (ac m))) keys user in
  let keys :=
    fold_left (gather (groupSubjectRecordStore (live (ac m)))) groups keys in
  match ScopesToVisibleNamespaces (GetScopes userInfo) (world m) with
  | Err err => Err err
  | Ok allowedNamespaces =>
    List_items allowedNamespaces (world m) (sets_List keys) []
  end.
End Cache.

(** ** A concrete world

    Upstream state as plain data, with a journal of the calls made to the
    reviewer and the listers. *)
Module Upstream.
Record t := {
  namespaces_ : list Namespace;
  namespacesVersion : string;
  reviews : list (string * Result Review);
  clusterPolicies : Result (list ClusterPolicy);
  clusterPolicyBindings : Result (list ClusterPolicyBinding);
  policies : Result (list Policy);
  policyBindings : Result (list PolicyBinding);
  policyVersions : string * string * string * string;
  visible : Result (gset string);
  journal : list string;
}.

Definition record (call : string) (u : t) : t :=
  {| namespaces_ := namespaces_ u; namespacesVersion := namespacesVersion u;
     reviews := reviews u; clusterPolicies := clusterPolicies u;
     clusterPolicyBindings := clusterPolicyBindings u;
     policies := policies u; policyBindings := policyBindings u;
     policyVersions := policyVersions u; visible := visible u;
     journal := (journal u ++ [call])%list |}.

Fixpoint assoc {A} (k : string) (l : list (string * A)) : option A :=
  match l with
  | [] => None
  | (k', a) :: l => if bool_decide (k = k') then Some a else assoc k l
  end.

Definition review (namespace : string) (u : t) : Result Review :=
  match assoc namespace (reviews u) with
  | Some r => r
  | None => Ok {| Users := []; Groups := []; EvaluationError := "" |}
  end.

Definition getByKey (key : string) (u : t) : Result (option Namespace) :=
  Ok (assoc key ((fun n => (ns_Name n, n)) <$> namespaces_ u)).

#[global] Instance collaborators : Collaborators t := {|
  reviewer_Review namespace u :=
    (review namespace u, record ("Review " +:+ namespace) u);
  namespaceStore_List u := (namespaces_ u, record "namespaces.List" u);
  namespaceStore_GetByKey := getByKey;
  namespaces_LastSyncResourceVersion := namespacesVersion;
  clusterPolicyLister_List u :=
    (clusterPolicies u, record "clusterPolicies.List" u);
  clusterPolicyLister_LastSyncResourceVersion u := (policyVersions u).1.1.1;
  clusterPolicyBindingLister_List u :=
    (clusterPolicyBindings u, record "clusterPolicyBindings.List" u);
  clusterPolicyBindingLister_LastSyncResourceVersion u :=
    (policyVersions u).1.1.2;
  policyNamespacer_List u := (policies u, record "policies.List" u);
  policyNamespacer_LastSyncResourceVersion u := (policyVersions u).1.2;
  policyBindingNamespacer_List u :=
    (policyBindings u, record "policyBindings.List" u);
  policyBindingNamespacer_LastSyncResourceVersion u := (policyVersions u).2;
  ScopesToVisibleNamespaces _ u := visible u;
|}.

(** [NewAuthorizationCache]: empty stores, two empty version sets of its
    own, the never-skip oracle, no watcher. *)
Definition NewAuthorizationCache (u : t) : Machine t :=
  {| ac := {| allKnownNamespaces := ∅; live := NewStores;
              clusterBindingResourceVersions := 1;
              clusterPolicyResourceVersions := 0;
              skip := neverSkipSynchronizer; lastState := "";
              watchers := [] |};
     stringSets := [∅; ∅]; world := u; handledErrors := [] |}.

Definition review_of (us gs : list string) : Result Review :=
  Ok {| Users := us; Groups := gs; EvaluationError := "" |}.

(** Namespaces a and b; alice can see both, bob only b. *)
Definition bootstrap : t :=
  {| namespaces_ := [ {| ns_Name := "a"; ns_ResourceVersion := "1" |};
                      {| ns_Name := "b"; ns_ResourceVersion := "2" |} ];
     namespacesVersion := "2";
     reviews := [("a", review_of ["alice"] []);
                 ("b", review_of ["alice"; "bob"] [])];
     clusterPolicies := Ok [ {| cp_ResourceVersion := "10" |} ];
     clusterPolicyBindings := Ok [ {| cpb_ResourceVersion := "20" |} ];
     policies := Ok [];
     policyBindings := Ok [];
     policyVersions := ("10", "20", "0", "0");
     visible := Ok {["*"]};
     journal := [] |}.

(** The same upstream with another answer of the reviewer for a. *)
Definition answering (r : Result Review) : t :=
  {| namespaces_ := namespaces_ bootstrap;
     namespacesVersion := namespacesVersion bootstrap;
     reviews := [("a", r)];
     clusterPolicies := clusterPolicies bootstrap;
     clusterPolicyBindings := clusterPolicyBindings bootstrap;
     policies := policies bootstrap; policyBindings := policyBindings bootstrap;
     policyVersions := policyVersions bootstrap; visible := visible bootstrap;
     journal := [] |}.

Definition reviewerDown : t := answering (Err "reviewer down").

Definition halfEvaluated : Review :=
  {| Users := ["alice"]; Groups := ["dev"];
     EvaluationError := "rule not found" |}.

Definition warning : t := answering (Ok halfEvaluated).

(** The request synchronizeNamespaces makes for namespace a. *)
Definition requestA : reviewRequest :=
  {| namespace := "a"; namespaceResourceVersion := "1";
     policyUIDToResourceVersion := ∅;
     policyBindingUIDToResourceVersion := ∅ |}.


(** The cache after [Run] and one cycle over [bootstrap]. *)
Definition afterBootstrap : Machine t :=
  synchronize (AddWatcher (Run (NewAuthorizationCache bootstrap))).

Definition alice : userInfo :=
  {| GetName := "alice"; GetGroups := []; GetScopes := [] |}.

Definition bob : userInfo :=
  {| GetName := "bob"; GetGroups := []; GetScopes := [] |}.

(** The names List answers, when it answers. *)
Definition listed (m : Machine t) (u : userInfo) : option (list string) :=
  match List m u with
  | Ok l => Some (ns_Name <$> l)
  | Err _ => None
  end.

(** Upstream changes between two cycles. *)
Definition change (namespaces : list Namespace) (version : string)
    (reviews : list (string * Result Review)) (visible : Result (gset string))
    (u : t) : t :=
  {| namespaces_ := namespaces; namespacesVersion := version;
     reviews := reviews; clusterPolicies := clusterPolicies u;
     clusterPolicyBindings := clusterPolicyBindings u;
     policies := policies u; policyBindings := policyBindings u;
     policyVersions := policyVersions u; visible := visible;
     journal := [] |}.

(** Namespace a is removed upstream. *)
Definition afterDeletion : Machine t :=
  synchronize
    (set_world
       (change [ {| ns_Name := "b"; ns_ResourceVersion := "2" |} ] "3"
          (reviews bootstrap) (visible bootstrap) bootstrap)
       afterBootstrap).

(** The reviewer of b no longer names bob. *)
Definition afterRevocation : Machine t :=
  synchronize
    (set_world
       (change [ {| ns_Name := "a"; ns_ResourceVersion := "1" |};
                 {| ns_Name := "b"; ns_ResourceVersion := "3" |} ] "3"
          [("a", review_of ["alice"] []); ("b", review_of ["alice"] [])]
          (visible bootstrap) bootstrap)
       afterBootstrap).

(** The scopes of alice restrict her to b. *)
Definition scoped : Machine t :=
  set_world
    (change (namespaces_ bootstrap) "2" (reviews bootstrap) (Ok {["b"]})
       bootstrap)
    afterBootstrap.

(** One namespace with a policy and a policy binding; the cluster policy and
    the cluster policy binding carry the same resource version. *)
Definition governed : t :=
  {| namespaces_ := [ {| ns_Name := "a"; ns_ResourceVersion := "1" |} ];
     namespacesVersion := "1";
     reviews := [("a", review_of ["alice"] ["dev"])];
     clusterPolicies := Ok [ {| cp_ResourceVersion := "10" |} ];
     clusterPolicyBindings := Ok [ {| cpb_ResourceVersion := "10" |} ];
     policies := Ok [ {| p_Namespace := "a"; p_UID := "p1";
                         p_ResourceVersion := "7" |} ];
     policyBindings := Ok [ {| pb_Namespace := "a"; pb_UID := "b1";
                               pb_ResourceVersion := "9" |} ];
     policyVersions := ("10", "10", "7", "9");
     visible := Ok {["*"]};
     journal := [] |}.

Definition afterGoverned : Machine t :=
  synchronize (Run (NewAuthorizationCache governed)).

(** A second cycle after the informers moved on without any object
    changing. *)
Definition afterResync : Machine t :=
  synchronize
    (set_world
       (change (namespaces_ governed) "2" (reviews governed) (visible governed)
          governed)
       afterGoverned).
End Upstream.

(** ** Invariants of the stores *)

(** The namespaces a store lists for a subject. *)
Definition nsOf (u : SubjectStore) (s : string) : gset string :=
  match u !! s with
  | Some r => namespaces r
  | None => ∅
  end.

(** Every record sits under the key its key function computes. *)
Definition keyed_by_subject (u : SubjectStore) : Prop :=
  ∀ k r, u !! k = Some r → subject r = k.

Definition keyed_by_namespace (rs : ReviewStore) : Prop :=
  ∀ k rr, rs !! k = Some rr → namespace (request_of rr) = k.

(** I2: no subject record has an empty namespace set. *)
Definition no_empty_subject (u : SubjectStore) : Prop :=
  ∀ k r, u !! k = Some r → namespaces r ≠ ∅.

(** I1: a subject lists a namespace exactly when the review record of that
    namespace names the subject. *)
Definition indexed (sel : reviewRecord → list string) (u : SubjectStore)
    (rs : ReviewStore) : Prop :=
  ∀ s ns, ns ∈ nsOf u s ↔ ∃ rr, rs !! ns = Some rr ∧ s ∈ sel rr.

Record consistent (stores : Stores) : Prop := {
  users_keyed : keyed_by_subject (userSubjectRecordStore stores);
  groups_keyed : keyed_by_subject (groupSubjectRecordStore stores);
  reviews_keyed : keyed_by_namespace (reviewRecordStore stores);
  users_no_empty : no_empty_subject (userSubjectRecordStore stores);
  groups_no_empty : no_empty_subject (groupSubjectRecordStore stores);
  users_indexed :
    indexed users (userSubjectRecordStore stores) (reviewRecordStore stores);
  groups_indexed :
    indexed groups (groupSubjectRecordStore stores) (reviewRecordStore stores);
}.

(** ** What the specification says, in its own words *)

(** The skipReview rules read off the specification: the namespaces match;
    a non-empty namespace resource version equals the stored one; every
    policy and every binding version of the request is stored as it is. *)
Definition carries_nothing_new (request : reviewRequest)
    (lastKnownValue : reviewRecord) : Prop :=
  namespace request = namespace (request_of lastKnownValue)
  ∧ (namespaceResourceVersion request ≠ "" →
     namespaceResourceVersion request
     = namespaceResourceVersion (request_of lastKnownValue))
  ∧ (∀ k v, policyUIDToResourceVersion request !! k = Some v →
            policyUIDToResourceVersion (request_of lastKnownValue) !! k = Some v)
  ∧ (∀ k v, policyBindingUIDToResourceVersion request !! k = Some v →
            policyBindingUIDToResourceVersion (request_of lastKnownValue) !! k
            = Some v).

(** All the rules hold: the request is non-nil, lastKnown is non-nil, and the
    request carries nothing new. *)
Definition satisfied (request : option reviewRequest)
    (lastKnownValue : option reviewRecord) : Prop :=
  match request, lastKnownValue with
  | Some request, Some lastKnownValue =>
    carries_nothing_new request lastKnownValue
  | _, _ => False
  end.

(** What was last known of a namespace, nothing when there is no record. *)
Definition known {A} `{Empty A} (f : reviewRequest → A)
    (lastKnownValue : option reviewRecord) : A :=
  match lastKnownValue with
  | Some lastKnownValue => f (request_of lastKnownValue)
  | None => ∅
  end.

Definition knownVersion (lastKnownValue : option reviewRecord) : string :=
  match lastKnownValue with
  | Some lastKnownValue => namespaceResourceVersion (request_of lastKnownValue)
  | None => ""
  end.

(** The notification purgeDeletedNamespaces sends for a namespace. *)
Definition gone (namespace : string) : Notification :=
  {| n_namespace := namespace; n_users := ∅; n_groups := ∅ |}.

(** The part of consistency that I2 rests on: both subject stores are keyed
    by subject and hold no record with an empty namespace set. *)
Definition tidy (stores : Stores) : Prop :=
  keyed_by_subject (userSubjectRecordStore stores)
  ∧ keyed_by_subject (groupSubjectRecordStore stores)
  ∧ no_empty_subject (userSubjectRecordStore stores)
  ∧ no_empty_subject (groupSubjectRecordStore stores).

(** ** The ticker and what a pass leaves alone *)

(** The ticker started by Run, over finitely many periods: before each cycle
    the upstream has moved on to the next world of the list. *)
Definition ticks {W : Type} `{!Collaborators W} (upstream : list W)
    (m : Machine W) : Machine W :=
  fold_left (fun m w => synchronize (set_world w m)) upstream m.

(** What the passes of a cycle may do to the machine they are handed: tell
    every watcher the same further notifications, in the same order, log
    further errors and move the world.  The other fields of the cache and the
    version sets stay as they are. *)
Definition passes_on {W : Type} (sent : list Notification)
    (m m' : Machine W) : Prop :=
  watchers (ac m') = fmap (fun w => (w ++ sent)%list) (watchers (ac m))
  ∧ allKnownNamespaces (ac m') = allKnownNamespaces (ac m)
  ∧ live (ac m') = live (ac m)
  ∧ clusterBindingResourceVersions (ac m')
    = clusterBindingResourceVersions (ac m)
  ∧ clusterPolicyResourceVersions (ac m')
    = clusterPolicyResourceVersions (ac m)
  ∧ skip (ac m') = skip (ac m)
  ∧ lastState (ac m') = lastState (ac m)
  ∧ stringSets m' = stringSets m
  ∧ handledErrors m `prefix_of` handledErrors m'.

(** The notification syncRequest sends for a review. *)
Definition reviewed_notification (namespace : string) (review : Review)
  : Notification :=
  {| n_namespace := namespace; n_users := sets_NewString (Users review);
     n_groups := sets_NewString (Groups review) |}.

(** Both version-set fields of the cache name a set of the heap. *)
Definition addresses_valid {W : Type} (m : Machine W) : Prop :=
  clusterPolicyResourceVersions (ac m) < length (stringSets m)
  ∧ clusterBindingResourceVersions (ac m) < length (stringSets m).

(** The users or groups lastKnown names, none when there is no record. *)
Definition named (sel : reviewRecord → list string)
    (lastKnownValue : option reviewRecord) : list string :=
  match lastKnownValue with
  | Some lastKnownValue => sel lastKnownValue
  | None => []
  end.

(** * Properties *)

(** ** Library functions *)

Lemma append_assoc (a b c : string) : (a +:+ b) +:+ c = a +:+ (b +:+ c).
Proof.
  induction a as [|x a IH]; [done|].
  change (String x ((a +:+ b) +:+ c) = String x (a +:+ b +:+ c)).
  by rewrite IH.
Qed.

Lemma strings_Join_concat elems sep :
  strings_Join elems sep = String.concat sep elems.
Proof.
  destruct elems as [|e rest]; [done|]. simpl.
  revert e. induction rest as [|x rest IH]; intros e; [done|].
  simpl fold_left. rewrite IH. simpl.
  destruct rest; simpl; by rewrite ?append_assoc.
Qed.

Lemma fold_left_snoc_fmap {A B} (f : A → B) (l : list A) (acc : list B) :
  fold_left (fun acc x => (acc ++ [f x])%list) l acc = (acc ++ (f <$> l))%list.
Proof.
  revert acc. induction l as [|x l IH]; intros acc; simpl.
  - by rewrite app_nil_r.
  - rewrite IH. by rewrite <- app_assoc.
Qed.

Lemma sets_List_elem_of s x : x ∈ sets_List s ↔ x ∈ s.
Proof.
  unfold sets_List. rewrite merge_sort_Permutation. apply elem_of_elements.
Qed.

Lemma sets_List_NoDup s : NoDup (sets_List s).
Proof.
  unfold sets_List. rewrite merge_sort_Permutation. apply NoDup_elements.
Qed.

Lemma sets_List_sorted s : StronglySorted (strict String.le) (sets_List s).
Proof.
  pose proof (sets_List_NoDup s) as Hnd.
  pose proof (StronglySorted_merge_sort String.le (elements s)) as Hs.
  fold (sets_List s) in Hs.
  induction Hs as [|x l Hs IH Hx]; [constructor|].
  apply NoDup_cons in Hnd as [Hnx Hnd].
  constructor; [by apply IH|].
  rewrite Forall_forall in Hx |- *. intros y Hy.
  apply strict_spec_alt. split; [by apply Hx|].
  intros ->. done.
Qed.

Lemma sets_Insert_spec s items : sets_Insert s items = s ∪ list_to_set items.
Proof.
  unfold sets_Insert. revert s.
  induction items as [|x items IH]; intros s; simpl; [set_solver|].
  rewrite IH. set_solver.
Qed.

Lemma sets_Delete_spec s items : sets_Delete s items = s ∖ list_to_set items.
Proof.
  unfold sets_Delete. revert s.
  induction items as [|x items IH]; intros s; simpl; [set_solver|].
  rewrite IH. set_solver.
Qed.

Lemma sets_HasAll_spec s items :
  sets_HasAll s items = true ↔ ∀ x, x ∈ items → x ∈ s.
Proof.
  unfold sets_HasAll. rewrite forallb_forall.
  split; intros H x Hx.
  - apply list_elem_of_In in Hx. apply H in Hx. by apply bool_decide_eq_true in Hx.
  - apply bool_decide_eq_true. apply H. by apply list_elem_of_In.
Qed.

Lemma length_pos_nonempty (s : string) : 0 < String.length s ↔ s ≠ "".
Proof. destruct s; simpl; split; (done || lia). Qed.

Lemma range_insert_union (m b : gmap string string) :
  map_fold (fun k v acc => <[k := v]> acc) b m = m ∪ b.
Proof.
  apply (map_fold_weak_ind (fun r m => r = m ∪ b)).
  - by rewrite (left_id_L ∅ (∪)).
  - intros i x m' r _ ->. by rewrite insert_union_l.
Qed.

Lemma forallb_range (m old : gmap string string) :
  forallb
    (fun kv : string * string =>
       match old !! kv.1 with
       | Some oldValue => bool_decide (kv.2 = oldValue)
       | None => false
       end)
    (map_to_list m) = true
  ↔ ∀ k v, m !! k = Some v → old !! k = Some v.
Proof.
  rewrite forallb_forall. split.
  - intros H k v Hkv. apply elem_of_map_to_list, list_elem_of_In in Hkv.
    apply H in Hkv. simpl in Hkv.
    destruct (old !! k); [|done]. apply bool_decide_eq_true in Hkv. by subst.
  - intros H [k v] Hin. apply list_elem_of_In, elem_of_map_to_list in Hin.
    simpl. rewrite (H _ _ Hin). by apply bool_decide_eq_true.
Qed.

(** ** The skip oracle *)

(** C8: the stateless skip synchronizer answers the comma-joined
    concatenation of the sources' version tokens and whether it equals the
    previous state; two calls with the same previous state and the same
    tuple of tokens answer alike, whatever the sources and the world. *)
Theorem stateless_SkipSynchronize_pure {W : Type} (prevState : string)
    (versionedObjects : list (LastSyncResourceVersioner W)) (w : W) :
  let tokens := (fun v => v w) <$> versionedObjects in
  stateless_SkipSynchronize prevState versionedObjects w
  = (bool_decide (String.concat "," tokens = prevState),
     String.concat "," tokens)
  ∧ ∀ (W' : Type) (others : list (LastSyncResourceVersioner W')) (w' : W'),
      (fun v => v w') <$> others = tokens →
      stateless_SkipSynchronize prevState others w'
      = stateless_SkipSynchronize prevState versionedObjects w.
Proof.
  assert (Heq : ∀ (V : Type) (vs : list (LastSyncResourceVersioner V)) (v : V),
            stateless_SkipSynchronize prevState vs v
            = (bool_decide (String.concat "," ((fun x => x v) <$> vs) = prevState),
               String.concat "," ((fun x => x v) <$> vs))).
  { intros V vs v. unfold stateless_SkipSynchronize.
    rewrite (fold_left_snoc_fmap (fun x => x v)), app_nil_l.
    by rewrite strings_Join_concat. }
  intros tokens. split; [apply Heq|].
  intros W' others w' Htok. rewrite !Heq. by rewrite Htok.
Qed.

Lemma stateless_SkipSynchronize_pure_witness :
  stateless_SkipSynchronize (W := unit) "7,3"
    [fun _ => "7"; unionLastSyncResourceVersioner [fun _ => "3"; fun _ => ""]] ()
  = stateless_SkipSynchronize (W := nat) "7,3" [fun n => "7"; fun n => "3"] 5.
Proof.
  apply (proj2 (stateless_SkipSynchronize_pure (W := nat) "7,3"
                  [fun n => "7"; fun n => "3"] 5)).
  reflexivity.
Defined.

(** ** skipReview *)

Lemma skipReview_Some request lastKnownValue :
  skipReview (Some request) (Some lastKnownValue) = true
  ↔ carries_nothing_new request lastKnownValue.
Proof.
  unfold skipReview, carries_nothing_new.
  rewrite <- !forallb_range.
  destruct (decide (namespace request = namespace (request_of lastKnownValue)))
    as [Hns|Hns].
  2:{ rewrite bool_decide_eq_false_2 by done. simpl. naive_solver. }
  rewrite bool_decide_eq_true_2 by done. simpl.
  destruct (decide (namespaceResourceVersion request
                    = namespaceResourceVersion (request_of lastKnownValue)))
    as [Hrv|Hrv].
  - rewrite (bool_decide_eq_true_2 (namespaceResourceVersion request = _))
      by done.
    rewrite andb_false_r.
    destruct (forallb _ (map_to_list (policyBindingUIDToResourceVersion request)));
      simpl; [|naive_solver].
    destruct (forallb _ (map_to_list (policyUIDToResourceVersion request)));
      simpl; naive_solver.
  - rewrite (bool_decide_eq_false_2 (namespaceResourceVersion request = _))
      by done.
    rewrite andb_true_r.
    destruct (decide (namespaceResourceVersion request = "")) as [He|He].
    + rewrite bool_decide_eq_false_2
        by (rewrite length_pos_nonempty; naive_solver).
      destruct (forallb _ (map_to_list (policyBindingUIDToResourceVersion request)));
        simpl; [|naive_solver].
      destruct (forallb _ (map_to_list (policyUIDToResourceVersion request)));
        simpl; naive_solver.
    + rewrite bool_decide_eq_true_2 by (by rewrite length_pos_nonempty).
      naive_solver.
Qed.

(** C1, as the code has it: skipReview answers true exactly when the request
    is nil, or lastKnown is non-nil and the request carries nothing that
    lastKnown does not already have. *)
Theorem skipReview_iff request lastKnownValue :
  skipReview request lastKnownValue = true
  ↔ request = None ∨ satisfied request lastKnownValue.
Proof.
  destruct request as [request|]; [|simpl; naive_solver].
  destruct lastKnownValue as [lastKnownValue|].
  - rewrite skipReview_Some. simpl. naive_solver.
  - simpl. naive_solver.
Qed.

(** C1, as the claim has it, fails for a nil request: the code answers true
    although the rules ask for a non-nil request. *)
Lemma skipReview_nil_request :
  ¬ (skipReview None None = true ↔ satisfied None None).
Proof. simpl. intros [H _]. by apply H. Qed.

(** ** cacheReviewRecord *)

Lemma cacheReviewRecord_written request lastKnownValue review
    (reviewRecordStore : ReviewStore) :
  ∃ record,
    cacheReviewRecord request lastKnownValue review reviewRecordStore
    = <[namespace request := record]> reviewRecordStore
    ∧ namespace (request_of record) = namespace request
    ∧ users record = Users review
    ∧ groups record = Groups review
    ∧ namespaceResourceVersion (request_of record)
      = (if decide (namespaceResourceVersion request = "")
         then knownVersion lastKnownValue
         else namespaceResourceVersion request)
    ∧ policyUIDToResourceVersion (request_of record)
      = policyUIDToResourceVersion request
        ∪ known policyUIDToResourceVersion lastKnownValue
    ∧ policyBindingUIDToResourceVersion (request_of record)
      = policyBindingUIDToResourceVersion request
        ∪ known policyBindingUIDToResourceVersion lastKnownValue.
Proof.
  unfold cacheReviewRecord, Store.Add, reviewRecordKeyFn.
  assert (Hrv : ∀ (a b : string),
             (if bool_decide (0 < String.length a) then a else b)
             = (if decide (a = "") then b else a)).
  { intros a b. destruct (decide (a = "")) as [->|Hne]; [done|].
    by rewrite bool_decide_eq_true_2 by (by apply length_pos_nonempty). }
  destruct lastKnownValue as [lastKnownValue|]; simpl;
    rewrite ?range_insert_union, ?(right_id_L (∅ : gmap string string) (∪));
    eexists; (split; [reflexivity|]); simpl;
    repeat split; try done; apply Hrv.
Qed.

(** C2: cacheReviewRecord writes, under the request's namespace, a record
    with the review's users and groups whose version maps are the ones of
    lastKnown overlaid with the request's entries, and whose namespace
    resource version is lastKnown's unless the request carries a non-empty
    one; no other key of the store changes.  So a request that mentions only
    policies keeps the known binding versions, and the other way round. *)
Theorem cacheReviewRecord_overlay request lastKnownValue review
    (reviewRecordStore : ReviewStore) :
  ∃ record,
    cacheReviewRecord request lastKnownValue review reviewRecordStore
    = <[namespace request := record]> reviewRecordStore
    ∧ namespace (request_of record) = namespace request
    ∧ users record = Users review
    ∧ groups record = Groups review
    ∧ namespaceResourceVersion (request_of record)
      = (if decide (namespaceResourceVersion request = "")
         then knownVersion lastKnownValue
         else namespaceResourceVersion request)
    ∧ (∀ k, policyUIDToResourceVersion (request_of record) !! k
            = match policyUIDToResourceVersion request !! k with
              | Some v => Some v
              | None => known policyUIDToResourceVersion lastKnownValue !! k
              end)
    ∧ (∀ k, policyBindingUIDToResourceVersion (request_of record) !! k
            = match policyBindingUIDToResourceVersion request !! k with
              | Some v => Some v
              | None =>
                known policyBindingUIDToResourceVersion lastKnownValue !! k
              end)
    ∧ (policyBindingUIDToResourceVersion request = ∅ →
       policyBindingUIDToResourceVersion (request_of record)
       = known policyBindingUIDToResourceVersion lastKnownValue)
    ∧ (policyUIDToResourceVersion request = ∅ →
       policyUIDToResourceVersion (request_of record)
       = known policyUIDToResourceVersion lastKnownValue).
Proof.
  unfold cacheReviewRecord, Store.Add, reviewRecordKeyFn.
  assert (Hlk : ∀ m : gmap string string, m ∪ ∅ = m)
    by (intros m; apply (right_id_L ∅ (∪))).
  assert (Hlookup : ∀ (m b : gmap string string) k,
             (m ∪ b) !! k = match m !! k with Some v => Some v | None => b !! k end).
  { intros m b k. rewrite lookup_union. destruct (m !! k), (b !! k); done. }
  assert (Hrv : ∀ (a b : string),
             (if bool_decide (0 < String.length a) then a else b)
             = (if decide (a = "") then b else a)).
  { intros a b. destruct (decide (a = "")) as [->|Hne]; [done|].
    by rewrite bool_decide_eq_true_2 by (by apply length_pos_nonempty). }
  destruct lastKnownValue as [lastKnownValue|]; simpl;
    rewrite ?range_insert_union, ?Hlk; eexists; (split; [reflexivity|]); simpl;
    repeat split; try done; try apply Hrv; try apply Hlookup.
  - intros ->. by rewrite (left_id_L ∅ (∪)).
  - intros ->. by rewrite (left_id_L ∅ (∪)).
  - intros k. rewrite lookup_empty. by destruct (_ !! k).
  - intros k. rewrite lookup_empty. by destruct (_ !! k).
Qed.

Lemma cacheReviewRecord_overlay_witness :
  ∃ record,
    cacheReviewRecord
      {| namespace := "a"; namespaceResourceVersion := "";
         policyUIDToResourceVersion := {["p1" := "5"]};
         policyBindingUIDToResourceVersion := ∅ |}
      (Some {| request_of :=
                 {| namespace := "a"; namespaceResourceVersion := "9";
                    policyUIDToResourceVersion := {["p1" := "4"]};
                    policyBindingUIDToResourceVersion := {["b1" := "2"]} |};
               users := ["alice"]; groups := [] |})
      {| Users := ["alice"; "bob"]; Groups := []; EvaluationError := "" |}
      ∅ !! "a" = Some record
    ∧ namespaceResourceVersion (request_of record) = "9"
    ∧ policyUIDToResourceVersion (request_of record) = {["p1" := "5"]}
    ∧ policyBindingUIDToResourceVersion (request_of record) = {["b1" := "2"]}.
Proof.
  destruct (cacheReviewRecord_overlay
      {| namespace := "a"; namespaceResourceVersion := "";
         policyUIDToResourceVersion := {["p1" := "5"]};
         policyBindingUIDToResourceVersion := ∅ |}
      (Some {| request_of :=
                 {| namespace := "a"; namespaceResourceVersion := "9";
                    policyUIDToResourceVersion := {["p1" := "4"]};
                    policyBindingUIDToResourceVersion := {["b1" := "2"]} |};
               users := ["alice"]; groups := [] |})
      {| Users := ["alice"; "bob"]; Groups := []; EvaluationError := "" |}
      ∅) as (record & Hstore & _ & _ & _ & Hrv & Hp & _ & Hb & _).
  exists record. rewrite Hstore. simpl in *.
  split; [apply lookup_insert_eq|]. split; [exact Hrv|].
  split; [|apply Hb; reflexivity].
  apply map_eq. intros k. rewrite Hp.
  destruct (decide (k = "p1")) as [->|Hne].
  - by rewrite !lookup_singleton_eq.
  - by rewrite !lookup_singleton_ne.
Defined.

(** ** The subject stores *)

Lemma nsOf_Some (u : SubjectStore) s r : u !! s = Some r → nsOf u s = namespaces r.
Proof. unfold nsOf. by intros ->. Qed.

Lemma nsOf_None (u : SubjectStore) s : u !! s = None → nsOf u s = ∅.
Proof. unfold nsOf. by intros ->. Qed.

(** Split on whether two keys of a store are the same and simplify the
    lookups accordingly. *)
Ltac same_key k k' :=
  destruct (decide (k = k')) as [->|?];
  [ rewrite ?lookup_insert_eq, ?lookup_delete_eq in *
  | rewrite ?lookup_insert_ne, ?lookup_delete_ne in * by done ].

Lemma nsOf_insert (u : SubjectStore) s r t :
  nsOf (<[s := r]> u) t = if decide (t = s) then namespaces r else nsOf u t.
Proof. unfold nsOf. by same_key t s. Qed.

Lemma nsOf_delete (u : SubjectStore) s t :
  nsOf (delete s u) t = if decide (t = s) then ∅ else nsOf u t.
Proof. unfold nsOf. by same_key t s. Qed.

Lemma keyed_by_subject_insert (u : SubjectStore) s r :
  keyed_by_subject u → subject r = s → keyed_by_subject (<[s := r]> u).
Proof. intros Hk Hs k r' Hl. same_key k s; [by simplify_eq|by apply Hk]. Qed.

Lemma keyed_by_subject_delete (u : SubjectStore) s :
  keyed_by_subject u → keyed_by_subject (delete s u).
Proof.
  intros Hk k r Hl. apply lookup_delete_Some in Hl as [_ Hl]. by apply Hk.
Qed.

Lemma no_empty_subject_insert (u : SubjectStore) s r :
  no_empty_subject u → namespaces r ≠ ∅ → no_empty_subject (<[s := r]> u).
Proof. intros Hn Hr k r' Hl. same_key k s; [by simplify_eq|by eapply Hn]. Qed.

Lemma no_empty_subject_delete (u : SubjectStore) s :
  no_empty_subject u → no_empty_subject (delete s u).
Proof.
  intros Hn k r Hl. apply lookup_delete_Some in Hl as [_ Hl]. by eapply Hn.
Qed.

Create HintDb stores discriminated.
#[global] Hint Resolve keyed_by_subject_insert keyed_by_subject_delete
  no_empty_subject_insert no_empty_subject_delete : stores.

Lemma deleteNamespaceFromSubject_spec ns (u : SubjectStore) s :
  keyed_by_subject u →
  keyed_by_subject (deleteNamespaceFromSubject ns u s)
  ∧ (no_empty_subject u → no_empty_subject (deleteNamespaceFromSubject ns u s))
  ∧ ∀ t, nsOf (deleteNamespaceFromSubject ns u s) t
         = if decide (t = s) then nsOf u t ∖ {[ns]} else nsOf u t.
Proof.
  intros Hk. unfold deleteNamespaceFromSubject, Store.GetByKey.
  destruct (u !! s) as [r|] eqn:Hs.
  - pose proof (Hk _ _ Hs) as Hsub.
    unfold Store.Delete, subjectRecordKeyFn. simpl. rewrite Hsub.
    case_bool_decide as Hsize.
    + apply size_empty_iff in Hsize. apply leibniz_equiv in Hsize.
      rewrite delete_insert_eq.
      split; [auto with stores|].
      split; [auto with stores|].
      intros t. rewrite nsOf_delete. case_decide as Ht; [|done].
      subst t. by rewrite (nsOf_Some _ _ _ Hs).
    + split; [auto with stores|].
      split.
      * intros Hn. apply no_empty_subject_insert; [done|]. simpl.
        intros He. apply Hsize. rewrite He. apply size_empty.
      * intros t. rewrite nsOf_insert. case_decide as Ht; [|done].
        subst t. by rewrite (nsOf_Some _ _ _ Hs).
  - split; [done|]. split; [done|].
    intros t. case_decide as Ht; [|done]. subst t.
    rewrite (nsOf_None _ _ Hs). set_solver.
Qed.

Lemma deleteNamespaceFromSubjects_spec ns subjects (u : SubjectStore) :
  keyed_by_subject u →
  keyed_by_subject (deleteNamespaceFromSubjects u subjects ns)
  ∧ (no_empty_subject u →
     no_empty_subject (deleteNamespaceFromSubjects u subjects ns))
  ∧ ∀ t, nsOf (deleteNamespaceFromSubjects u subjects ns) t
         = if decide (t ∈ subjects) then nsOf u t ∖ {[ns]} else nsOf u t.
Proof.
  unfold deleteNamespaceFromSubjects. revert u.
  induction subjects as [|s subjects IH]; intros u Hk; cbn [fold_left].
  { split; [done|]. split; [done|]. intros t. case_decide; [set_solver|done]. }
  destruct (deleteNamespaceFromSubject_spec ns u s Hk) as (Hk1 & Hn1 & Hns1).
  destruct (IH _ Hk1) as (Hk2 & Hn2 & Hns2).
  split; [done|]. split; [by auto|].
  intros t. rewrite Hns2, Hns1.
  destruct (decide (t = s)) as [->|Hne].
  - rewrite (decide_True (P := s ∈ s :: subjects)) by set_solver.
    case_decide; set_solver.
  - destruct (decide (t ∈ subjects)) as [Hin|Hin].
    + by rewrite (decide_True (P := t ∈ s :: subjects)) by set_solver.
    + by rewrite (decide_False (P := t ∈ s :: subjects)) by set_solver.
Qed.

Lemma addSubjectToNamespace_spec ns (u : SubjectStore) s :
  keyed_by_subject u →
  keyed_by_subject (addSubjectToNamespace ns u s)
  ∧ (no_empty_subject u → no_empty_subject (addSubjectToNamespace ns u s))
  ∧ ∀ t, nsOf (addSubjectToNamespace ns u s) t
         = if decide (t = s) then nsOf u t ∪ {[ns]} else nsOf u t.
Proof.
  intros Hk. unfold addSubjectToNamespace, Store.GetByKey.
  destruct (u !! s) as [r|] eqn:Hs.
  - pose proof (Hk _ _ Hs) as Hsub.
    split; [auto with stores|].
    split.
    + intros Hn. apply no_empty_subject_insert; [done|]. simpl. set_solver.
    + intros t. rewrite nsOf_insert. case_decide as Ht; [|done].
      subst t. by rewrite (nsOf_Some _ _ _ Hs).
  - unfold Store.Add, subjectRecordKeyFn, sets_NewString. simpl.
    rewrite insert_insert_eq.
    split; [auto with stores|].
    split.
    + intros Hn. apply no_empty_subject_insert; [done|]. simpl. set_solver.
    + intros t. rewrite nsOf_insert. case_decide as Ht; [|done].
      subst t. rewrite (nsOf_None _ _ Hs). simpl. done.
Qed.

Lemma addSubjectsToNamespace_spec ns subjects (u : SubjectStore) :
  keyed_by_subject u →
  keyed_by_subject (addSubjectsToNamespace u subjects ns)
  ∧ (no_empty_subject u →
     no_empty_subject (addSubjectsToNamespace u subjects ns))
  ∧ ∀ t, nsOf (addSubjectsToNamespace u subjects ns) t
         = if decide (t ∈ subjects) then nsOf u t ∪ {[ns]} else nsOf u t.
Proof.
  unfold addSubjectsToNamespace. revert u.
  induction subjects as [|s subjects IH]; intros u Hk; cbn [fold_left].
  { split; [done|]. split; [done|]. intros t. case_decide; [set_solver|done]. }
  destruct (addSubjectToNamespace_spec ns u s Hk) as (Hk1 & Hn1 & Hns1).
  destruct (IH _ Hk1) as (Hk2 & Hn2 & Hns2).
  split; [done|]. split; [by auto|].
  intros t. rewrite Hns2, Hns1.
  destruct (decide (t = s)) as [->|Hne].
  - rewrite (decide_True (P := s ∈ s :: subjects)) by set_solver.
    case_decide; set_solver.
  - destruct (decide (t ∈ subjects)) as [Hin|Hin].
    + by rewrite (decide_True (P := t ∈ s :: subjects)) by set_solver.
    + by rewrite (decide_False (P := t ∈ s :: subjects)) by set_solver.
Qed.

Lemma toRemove_elem_of (known current : list string) x :
  x ∈ sets_List (sets_Delete (sets_Insert (sets_NewString []) known) current)
  ↔ x ∈ known ∧ x ∉ current.
Proof.
  rewrite sets_List_elem_of, sets_Delete_spec, sets_Insert_spec.
  unfold sets_NewString. set_solver.
Qed.

Lemma sets_List_empty_elem_of x : x ∈ sets_List (sets_NewString []) ↔ False.
Proof. rewrite sets_List_elem_of. unfold sets_NewString. set_solver. Qed.

(** The subject store after the removals and additions of one review still
    mirrors the review store once the new record is in place. *)
Lemma reviewed_indexed (sel : reviewRecord → list string) (u : SubjectStore)
    (rs : ReviewStore) ns record (toRemove current : list string) :
  keyed_by_subject u →
  indexed sel u rs →
  (∀ x, x ∈ toRemove ↔
        (∃ l, rs !! ns = Some l ∧ x ∈ sel l) ∧ x ∉ current) →
  sel record = current →
  indexed sel
    (addSubjectsToNamespace (deleteNamespaceFromSubjects u toRemove ns)
       current ns)
    (<[ns := record]> rs).
Proof.
  intros Hk Hix Hrem Hsel s n.
  destruct (deleteNamespaceFromSubjects_spec ns toRemove u Hk) as (Hk1 & _ & Hd).
  destruct (addSubjectsToNamespace_spec ns current _ Hk1) as (_ & _ & Ha).
  rewrite Ha, Hd.
  destruct (decide (n = ns)) as [->|Hne].
  - rewrite lookup_insert_eq.
    destruct (decide (s ∈ current)) as [Hc|Hc].
    + split; [|set_solver]. intros _. exists record. by rewrite Hsel.
    + split.
      * intros Hin. exfalso.
        destruct (decide (s ∈ toRemove)) as [Hr|Hr]; [set_solver|].
        apply Hix in Hin. apply Hr, Hrem. done.
      * intros (rr & Hrr & Hs). simplify_eq. done.
  - rewrite lookup_insert_ne by done. rewrite <- (Hix s n).
    repeat case_decide; set_solver.
Qed.

Lemma consistent_NewStores : consistent NewStores.
Proof.
  split; simpl; try (intros k r Hl; by rewrite lookup_empty in Hl).
  - intros s ns. unfold nsOf. rewrite lookup_empty. split; [set_solver|].
    intros (rr & Hl & _). by rewrite lookup_empty in Hl.
  - intros s ns. unfold nsOf. rewrite lookup_empty. split; [set_solver|].
    intros (rr & Hl & _). by rewrite lookup_empty in Hl.
Qed.

Section CacheProperties.
Context {W : Type} `{!Collaborators W}.

(** ** syncRequest *)

Lemma syncRequest_consistent request stores (m : Machine W) :
  consistent stores → consistent (syncRequest request stores m).1.2.
Proof.
  intros Hc. unfold syncRequest, lastKnown, Store.GetByKey.
  set (ns := namespace request).
  assert (Hlk : match reviewRecordStore stores !! ns with
                | Some obj => Ok (Some obj)
                | None => Ok None
                end = Ok (reviewRecordStore stores !! ns))
    by (by destruct (_ !! ns)).
  rewrite Hlk. clear Hlk.
  destruct (skipReview _ _); [done|].
  destruct (reviewer_Review ns (world m)) as [[review|err] w]; [|done].
  destruct (cacheReviewRecord_written request (reviewRecordStore stores !! ns)
              review (reviewRecordStore stores))
    as (record & Hstore & Hrns & Hru & Hrg & _).
  fold ns in Hstore, Hrns.
  assert (consistent
    {| userSubjectRecordStore :=
         addSubjectsToNamespace
           (deleteNamespaceFromSubjects (userSubjectRecordStore stores)
              (sets_List
                 (match reviewRecordStore stores !! ns with
                  | Some lastKnownValue =>
                    (sets_Delete (sets_Insert (sets_NewString [])
                                    (users lastKnownValue)) (Users review),
                     sets_Delete (sets_Insert (sets_NewString [])
                                    (groups lastKnownValue)) (Groups review))
                  | None => (sets_NewString [], sets_NewString [])
                  end).1) ns) (Users review) ns;
       groupSubjectRecordStore :=
         addSubjectsToNamespace
           (deleteNamespaceFromSubjects (groupSubjectRecordStore stores)
              (sets_List
                 (match reviewRecordStore stores !! ns with
                  | Some lastKnownValue =>
                    (sets_Delete (sets_Insert (sets_NewString [])
                                    (users lastKnownValue)) (Users review),
                     sets_Delete (sets_Insert (sets_NewString [])
                                    (groups lastKnownValue)) (Groups review))
                  | None => (sets_NewString [], sets_NewString [])
                  end).2) ns) (Groups review) ns;
       reviewRecordStore :=
         cacheReviewRecord request (reviewRecordStore stores !! ns) review
           (reviewRecordStore stores) |}) as Hgoal.
  { destruct Hc as [Hku Hkg Hkr Hnu Hng Hiu Hig].
    set (ru := sets_List _). set (rg := sets_List _).
    destruct (deleteNamespaceFromSubjects_spec ns ru _ Hku) as (Hku1 & Hnu1 & _).
    destruct (addSubjectsToNamespace_spec ns (Users review) _ Hku1)
      as (Hku2 & Hnu2 & _).
    destruct (deleteNamespaceFromSubjects_spec ns rg _ Hkg) as (Hkg1 & Hng1 & _).
    destruct (addSubjectsToNamespace_spec ns (Groups review) _ Hkg1)
      as (Hkg2 & Hng2 & _).
    split; simpl; auto.
    - rewrite Hstore. intros k rr Hl.
      destruct (decide (k = ns)) as [->|Hne].
      + rewrite lookup_insert_eq in Hl. by simplify_eq.
      + rewrite lookup_insert_ne in Hl by done. by apply Hkr.
    - rewrite Hstore. apply reviewed_indexed; [done|done| |done].
      intros x. subst ru. destruct (reviewRecordStore stores !! ns) as [l|].
      + simpl. rewrite toRemove_elem_of. naive_solver.
      + simpl. rewrite sets_List_empty_elem_of. naive_solver.
    - rewrite Hstore. apply reviewed_indexed; [done|done| |done].
      intros x. subst rg. destruct (reviewRecordStore stores !! ns) as [l|].
      + simpl. rewrite toRemove_elem_of. naive_solver.
      + simpl. rewrite sets_List_empty_elem_of. naive_solver. }
  destruct (reviewRecordStore stores !! ns) as [l|];
    simpl in *; case_bool_decide; exact Hgoal.
Qed.

(** C5: when the review is not skipped and the reviewer answers an error,
    syncRequest returns that error; the three stores it was given are
    returned as they were, and the cache, with its watchers, is
    untouched: only the world has seen the call to the reviewer. *)
Theorem syncRequest_reviewer_error request stores (m : Machine W) err w :
  skipReview (Some request)
    (reviewRecordStore stores !! namespace request) = false →
  reviewer_Review (namespace request) (world m) = (Err err, w) →
  syncRequest request stores m = (Some err, stores, set_world w m)
  ∧ ac (set_world w m) = ac m
  ∧ watchers (ac (syncRequest request stores m).2) = watchers (ac m)
  ∧ handledErrors (syncRequest request stores m).2 = handledErrors m.
Proof.
  intros Hskip Hrev.
  assert (syncRequest request stores m = (Some err, stores, set_world w m))
    as ->; [|done].
  unfold syncRequest, lastKnown, Store.GetByKey.
  destruct (reviewRecordStore stores !! namespace request);
    rewrite Hskip, Hrev; done.
Qed.

(** C6: when the review succeeds but carries an evaluation error,
    syncRequest returns that string as its error, and the state it
    returns with is the committed one: the record of the review is in the
    review store, the subject stores list the namespace for exactly the
    users and groups of the review, and every watcher has been told. *)
Theorem syncRequest_evaluation_error request stores (m : Machine W) review w :
  consistent stores →
  skipReview (Some request)
    (reviewRecordStore stores !! namespace request) = false →
  reviewer_Review (namespace request) (world m) = (Ok review, w) →
  EvaluationError review ≠ "" →
  let result := syncRequest request stores m in
  result.1.1 = Some (EvaluationError review)
  ∧ reviewRecordStore result.1.2
    = cacheReviewRecord request
        (reviewRecordStore stores !! namespace request) review
        (reviewRecordStore stores)
  ∧ (∃ record,
       reviewRecordStore result.1.2 !! namespace request = Some record
       ∧ users record = Users review ∧ groups record = Groups review)
  ∧ (∀ s, namespace request ∈ nsOf (userSubjectRecordStore result.1.2) s
          ↔ s ∈ Users review)
  ∧ (∀ s, namespace request ∈ nsOf (groupSubjectRecordStore result.1.2) s
          ↔ s ∈ Groups review)
  ∧ consistent result.1.2
  ∧ watchers (ac result.2)
    = GroupMembershipChanged (namespace request)
        (sets_NewString (Users review)) (sets_NewString (Groups review))
      <$> watchers (ac m)
  ∧ world result.2 = w.
Proof.
  intros Hc Hskip Hrev Herr result.
  pose proof (syncRequest_consistent request stores m Hc) as Hc'.
  fold result in Hc'.
  assert (Hres : result.1.1 = Some (EvaluationError review)
            ∧ reviewRecordStore result.1.2
              = cacheReviewRecord request
                  (reviewRecordStore stores !! namespace request) review
                  (reviewRecordStore stores)
            ∧ watchers (ac result.2)
              = GroupMembershipChanged (namespace request)
                  (sets_NewString (Users review))
                  (sets_NewString (Groups review))
                <$> watchers (ac m)
            ∧ world result.2 = w).
  { subst result. unfold syncRequest, lastKnown, Store.GetByKey.
    apply length_pos_nonempty in Herr.
    destruct (reviewRecordStore stores !! namespace request);
      rewrite Hskip, Hrev; simpl;
      rewrite bool_decide_eq_true_2 by done; done. }
  destruct Hres as (He & Hr & Hw & Hwo).
  destruct (cacheReviewRecord_written request
              (reviewRecordStore stores !! namespace request)
              review (reviewRecordStore stores))
    as (record & Hstore & _ & Hru & Hrg & _).
  assert (Hrec : reviewRecordStore result.1.2 !! namespace request
                 = Some record)
    by (by rewrite Hr, Hstore, lookup_insert_eq).
  split; [done|]. split; [done|].
  split; [by exists record|].
  split; [|split; [|done]].
  - intros s. rewrite (users_indexed _ Hc' s (namespace request)).
    rewrite Hrec, <- Hru. naive_solver.
  - intros s. rewrite (groups_indexed _ Hc' s (namespace request)).
    rewrite Hrec, <- Hrg. naive_solver.
Qed.
(** ** purgeDeletedNamespaces *)

Lemma purgeReviewRecord_spec new stores rr :
  consistent stores →
  (∀ rr', reviewRecordStore stores !! namespace (request_of rr) = Some rr' →
          rr' = rr) →
  let ns := namespace (request_of rr) in
  let stores' := purgeReviewRecord new stores rr in
  consistent stores'
  ∧ reviewRecordStore stores'
    = (if decide (ns ∈ new) then reviewRecordStore stores
       else delete ns (reviewRecordStore stores))
  ∧ (∀ s, nsOf (userSubjectRecordStore stores') s
          = if decide (ns ∈ new) then nsOf (userSubjectRecordStore stores) s
            else nsOf (userSubjectRecordStore stores) s ∖ {[ns]})
  ∧ (∀ s, nsOf (groupSubjectRecordStore stores') s
          = if decide (ns ∈ new) then nsOf (groupSubjectRecordStore stores) s
            else nsOf (groupSubjectRecordStore stores) s ∖ {[ns]}).
Proof.
  intros Hc Hrr ns stores'. subst stores'. unfold purgeReviewRecord.
  fold ns. destruct (decide (ns ∈ new)) as [Hin|Hin].
  { rewrite bool_decide_eq_true_2 by done. done. }
  rewrite bool_decide_eq_false_2 by done. simpl.
  destruct Hc as [Hku Hkg Hkr Hnu Hng Hiu Hig].
  destruct (deleteNamespaceFromSubjects_spec ns (users rr) _ Hku)
    as (Hku1 & Hnu1 & Hdu).
  destruct (deleteNamespaceFromSubjects_spec ns (groups rr) _ Hkg)
    as (Hkg1 & Hng1 & Hdg).
  assert (Hu : ∀ s, nsOf (deleteNamespaceFromSubjects
                            (userSubjectRecordStore stores) (users rr) ns) s
                    = nsOf (userSubjectRecordStore stores) s ∖ {[ns]}).
  { intros s. rewrite Hdu. case_decide as Hs; [done|].
    assert (ns ∉ nsOf (userSubjectRecordStore stores) s); [|set_solver].
    intros Hl. apply Hiu in Hl as (rr' & Hl & Hs').
    apply Hrr in Hl. by subst. }
  assert (Hg : ∀ s, nsOf (deleteNamespaceFromSubjects
                            (groupSubjectRecordStore stores) (groups rr) ns) s
                    = nsOf (groupSubjectRecordStore stores) s ∖ {[ns]}).
  { intros s. rewrite Hdg. case_decide as Hs; [done|].
    assert (ns ∉ nsOf (groupSubjectRecordStore stores) s); [|set_solver].
    intros Hl. apply Hig in Hl as (rr' & Hl & Hs').
    apply Hrr in Hl. by subst. }
  unfold Store.Delete, reviewRecordKeyFn. fold ns.
  split; [|done].
  split; simpl; auto.
  - intros k r Hl. apply lookup_delete_Some in Hl as [_ Hl]. by apply Hkr.
  - intros s n. rewrite Hu. destruct (decide (n = ns)) as [->|Hne].
    + rewrite lookup_delete_eq. split; [set_solver|]. by intros (? & ? & _).
    + rewrite lookup_delete_ne by done. rewrite <- (Hiu s n). set_solver.
  - intros s n. rewrite Hg. destruct (decide (n = ns)) as [->|Hne].
    + rewrite lookup_delete_eq. split; [set_solver|]. by intros (? & ? & _).
    + rewrite lookup_delete_ne by done. rewrite <- (Hig s n). set_solver.
Qed.

Lemma purge_loop_spec new (rs0 : ReviewStore) items stores :
  consistent stores →
  reviewRecordStore stores ⊆ rs0 →
  (∀ rr, rr ∈ items → rs0 !! namespace (request_of rr) = Some rr) →
  let stores' := fold_left (purgeReviewRecord new) items stores in
  let purged : gset string :=
    list_to_set
      (filter (fun k => k ∉ new)
         ((fun rr => namespace (request_of rr)) <$> items)) in
  consistent stores'
  ∧ (∀ k, reviewRecordStore stores' !! k
          = if decide (k ∈ purged) then None
            else reviewRecordStore stores !! k)
  ∧ (∀ s, nsOf (userSubjectRecordStore stores') s
          = nsOf (userSubjectRecordStore stores) s ∖ purged)
  ∧ (∀ s, nsOf (groupSubjectRecordStore stores') s
          = nsOf (groupSubjectRecordStore stores) s ∖ purged).
Proof.
  revert stores. induction items as [|rr items IH]; intros stores Hc Hsub Hit.
  { intros stores' purged. subst stores' purged. cbn [fold_left].
    rewrite fmap_nil, filter_nil, list_to_set_nil.
    split; [done|]. split; [|split]; intros; [|set_solver..].
    by rewrite decide_False by set_solver. }
  cbn [fold_left].
  destruct (purgeReviewRecord_spec new stores rr Hc) as (Hc1 & Hr1 & Hu1 & Hg1).
  { intros rr' Hl. eapply lookup_weaken in Hl; [|exact Hsub].
    rewrite (Hit rr) in Hl by set_solver. by simplify_eq. }
  destruct (IH (purgeReviewRecord new stores rr) Hc1) as (Hc2 & Hr2 & Hu2 & Hg2).
  { rewrite Hr1. case_decide; [done|].
    etrans; [apply delete_subseteq|done]. }
  { intros rr' Hin. apply Hit. set_solver. }
  split; [done|].
  rewrite fmap_cons, filter_cons.
  set (ns := namespace (request_of rr)) in *.
  split; [|split].
  - intros k. rewrite Hr2, Hr1.
    destruct (decide (ns ∈ new)) as [Hn|Hn].
    + rewrite (decide_False (P := ns ∉ new)) by naive_solver. done.
    + rewrite (decide_True (P := ns ∉ new)) by done. rewrite list_to_set_cons.
      destruct (decide (k = ns)) as [->|Hne].
      * rewrite lookup_delete_eq. rewrite (decide_True (P := ns ∈ {[ns]} ∪ _))
          by set_solver. by case_decide.
      * rewrite lookup_delete_ne by done.
        repeat case_decide; set_solver.
  - intros s. rewrite Hu2, Hu1.
    destruct (decide (ns ∈ new)) as [Hn|Hn].
    + rewrite (decide_False (P := ns ∉ new)) by naive_solver. done.
    + rewrite (decide_True (P := ns ∉ new)) by done.
      rewrite list_to_set_cons. set_solver.
  - intros s. rewrite Hg2, Hg1.
    destruct (decide (ns ∈ new)) as [Hn|Hn].
    + rewrite (decide_False (P := ns ∉ new)) by naive_solver. done.
    + rewrite (decide_True (P := ns ∉ new)) by done.
      rewrite list_to_set_cons. set_solver.
Qed.
Lemma set_watchers_id (m : Machine W) :
  set_ac (set_watchers (watchers (ac m)) (ac m)) m = m.
Proof. by destruct m as [[] ? ? ?]. Qed.

Lemma notify_gone_spec (l : list string) (m : Machine W) :
  fold_left
    (fun m namespace =>
       notifyWatchers namespace None (∅ : gset string) (∅ : gset string) m)
    l m
  = set_ac
      (set_watchers
         (fmap (fun w => (w ++ (gone <$> l))%list) (watchers (ac m))) (ac m))
      m.
Proof.
  revert m. induction l as [|ns l IH]; intros m; cbn [fold_left].
  - rewrite <- (set_watchers_id m) at 1. do 2 f_equal.
    induction (watchers (ac m)) as [|w ws IHw]; [done|].
    rewrite fmap_cons, <- IHw. by rewrite fmap_nil, app_nil_r.
  - rewrite IH. unfold notifyWatchers, set_ac, set_watchers. simpl.
    do 2 f_equal. rewrite <- list_fmap_compose.
    apply list_fmap_ext. intros _ w _. simpl.
    unfold GroupMembershipChanged. by rewrite <- app_assoc.
Qed.

Lemma Store_List_elem_of (rs : ReviewStore) rr :
  rr ∈ Store.List rs ↔ ∃ k, rs !! k = Some rr.
Proof.
  unfold Store.List. rewrite list_elem_of_fmap. split.
  - intros ([k r] & -> & Hin). apply elem_of_map_to_list in Hin. by exists k.
  - intros (k & Hl). exists (k, rr). split; [done|].
    by apply elem_of_map_to_list.
Qed.

(** The stores after the loop of the purge, whatever the order of the
    snapshot: the review records of the namespaces in [new] and, for every
    subject, the namespaces in [new]. *)
Lemma purge_stores_spec (items : list reviewRecord) (new : gset string) stores :
  consistent stores →
  items ≡ₚ Store.List (reviewRecordStore stores) →
  let stores' := fold_left (purgeReviewRecord new) items stores in
  consistent stores'
  ∧ (∀ k, reviewRecordStore stores' !! k
          = if decide (k ∈ new) then reviewRecordStore stores !! k else None)
  ∧ (∀ s, nsOf (userSubjectRecordStore stores') s
          = nsOf (userSubjectRecordStore stores) s ∩ new)
  ∧ (∀ s, nsOf (groupSubjectRecordStore stores') s
          = nsOf (groupSubjectRecordStore stores) s ∩ new).
Proof.
  intros Hc Hperm stores'. subst stores'.
  destruct (purge_loop_spec new (reviewRecordStore stores) items stores Hc)
    as (Hc' & Hr & Hu & Hg); [done| |].
  { intros rr Hin. rewrite Hperm in Hin.
    apply Store_List_elem_of in Hin as (k & Hl).
    by rewrite (reviews_keyed _ Hc _ _ Hl). }
  set (purged := list_to_set _ : gset string) in *.
  assert (Hp : ∀ k, k ∈ purged
                    ↔ (k ∉ new) ∧ is_Some (reviewRecordStore stores !! k)).
  { intros k. subst purged. rewrite elem_of_list_to_set, list_elem_of_filter.
    rewrite list_elem_of_fmap. split.
    - intros (Hk & rr & -> & Hin). split; [done|].
      rewrite Hperm in Hin. apply Store_List_elem_of in Hin as (k & Hl).
      rewrite (reviews_keyed _ Hc _ _ Hl). eauto.
    - intros (Hk & rr & Hl). split; [done|]. exists rr.
      split; [by rewrite (reviews_keyed _ Hc _ _ Hl)|].
      rewrite Hperm. apply Store_List_elem_of. eauto. }
  assert (Hsub : ∀ sel u, indexed sel u (reviewRecordStore stores) →
            ∀ s, nsOf u s ∖ purged = nsOf u s ∩ new).
  { intros sel u Hix s. apply set_eq. intros n.
    rewrite elem_of_difference, elem_of_intersection, Hp.
    split; intros [Hn Hx]; (split; [done|]).
    - destruct (decide (n ∈ new)); [done|]. exfalso. apply Hx.
      split; [done|]. apply Hix in Hn as (rr & -> & _). eauto.
    - naive_solver. }
  split; [done|]. split; [|split].
  - intros k. rewrite Hr. destruct (decide (k ∈ new)) as [Hk|Hk].
    + rewrite decide_False; [done|]. rewrite Hp. naive_solver.
    + case_decide as Hk'; [done|].
      destruct (reviewRecordStore stores !! k) eqn:Hl; [|done].
      exfalso. apply Hk', Hp. rewrite Hl. eauto.
  - intros s. rewrite Hu. eapply Hsub, users_indexed, Hc.
  - intros s. rewrite Hg. eapply Hsub, groups_indexed, Hc.
Qed.


(** ** Invariants along a cycle *)

Lemma consistent_tidy stores : consistent stores → tidy stores.
Proof. intros []. by repeat split. Qed.

Lemma tidy_NewStores : tidy NewStores.
Proof. apply consistent_tidy, consistent_NewStores. Qed.

Lemma syncRequest_tidy request stores (m : Machine W) :
  tidy stores → tidy (syncRequest request stores m).1.2.
Proof.
  intros Ht. unfold syncRequest, lastKnown, Store.GetByKey.
  destruct (reviewRecordStore stores !! namespace request) as [l|];
    (destruct (skipReview _ _); [done|]);
    (destruct (reviewer_Review _ _) as [[review|err] w]; [|done]);
    destruct Ht as (Hku & Hkg & Hnu & Hng);
    match goal with
    | |- context [deleteNamespaceFromSubjects (userSubjectRecordStore _) ?ru ?ns] =>
      destruct (deleteNamespaceFromSubjects_spec ns ru _ Hku) as (Hku1 & Hnu1 & _);
      destruct (addSubjectsToNamespace_spec ns (Users review) _ Hku1)
        as (Hku2 & Hnu2 & _)
    end;
    match goal with
    | |- context [deleteNamespaceFromSubjects (groupSubjectRecordStore _) ?rg ?ns] =>
      destruct (deleteNamespaceFromSubjects_spec ns rg _ Hkg) as (Hkg1 & Hng1 & _);
      destruct (addSubjectsToNamespace_spec ns (Groups review) _ Hkg1)
        as (Hkg2 & Hng2 & _)
    end;
    simpl; case_bool_decide; repeat split; simpl; auto.
Qed.

Lemma purgeReviewRecord_tidy new stores rr :
  tidy stores → tidy (purgeReviewRecord new stores rr).
Proof.
  intros Ht. unfold purgeReviewRecord. case_bool_decide; simpl; [done|].
  destruct Ht as (Hku & Hkg & Hnu & Hng).
  destruct (deleteNamespaceFromSubjects_spec (namespace (request_of rr))
              (users rr) _ Hku) as (? & ? & _).
  destruct (deleteNamespaceFromSubjects_spec (namespace (request_of rr))
              (groups rr) _ Hkg) as (? & ? & _).
  repeat split; simpl; auto.
Qed.

Lemma purgeDeletedNamespacesFrom_tidy items old new stores (m : Machine W) :
  tidy stores → tidy (purgeDeletedNamespacesFrom items old new stores m).1.
Proof.
  unfold purgeDeletedNamespacesFrom. cbn [fst]. revert stores.
  induction items as [|rr items IH]; intros stores Ht; [done|].
  cbn [fold_left]. by apply IH, purgeReviewRecord_tidy.
Qed.

Lemma purgeDeletedNamespaces_consistent old new stores (m : Machine W) :
  consistent stores → consistent (purgeDeletedNamespaces old new stores m).1.
Proof.
  intros Hc. unfold purgeDeletedNamespaces, purgeDeletedNamespacesFrom.
  cbn [fst]. by apply purge_stores_spec.
Qed.

Section Preserved.
(** A property of the working stores that every syncRequest and the
    purge keep is kept by a whole cycle. *)
Variable P : Stores → Prop.
Hypothesis P_new : P NewStores.
Hypothesis P_syncRequest :
  ∀ request stores (m : Machine W),
    P stores → P (syncRequest request stores m).1.2.
Hypothesis P_purge :
  ∀ old new stores (m : Machine W),
    P stores → P (purgeDeletedNamespaces old new stores m).1.

Lemma dispatch_preserves request (sm : Stores * Machine W) :
  P sm.1 → P (dispatch request sm).1.
Proof.
  intros HP. unfold dispatch.
  pose proof (P_syncRequest request sm.1 sm.2 HP) as H.
  destruct (syncRequest request sm.1 sm.2) as [[[err|] stores] m]; done.
Qed.

Lemma dispatch_all_preserves {A} (mk : A → reviewRequest) (l : list A)
    (sm : Stores * Machine W) :
  P sm.1 → P (fold_left (fun sm a => dispatch (mk a) sm) l sm).1.
Proof.
  revert sm. induction l as [|a l IH]; intros sm HP; [done|].
  cbn [fold_left]. by apply IH, dispatch_preserves.
Qed.

Lemma synchronizeNamespaces_preserves stores (m : Machine W) :
  P stores → P (synchronizeNamespaces stores m).1.2.
Proof.
  intros HP. unfold synchronizeNamespaces.
  destruct (namespaceStore_List (world m)) as [items w].
  set (m' := set_world w m). clearbody m'.
  set (acc := sets_NewString []). clearbody acc.
  assert (H : ∀ (acc : gset string) (sm : Stores * Machine W), P sm.1 →
             P (fold_left
                  (fun '(namespaceSet, sm) namespace =>
                     (namespaceSet ∪ {[ns_Name namespace]},
                      dispatch
                        {| namespace := ns_Name namespace;
                           namespaceResourceVersion :=
                             ns_ResourceVersion namespace;
                           policyUIDToResourceVersion := ∅;
                           policyBindingUIDToResourceVersion := ∅ |}
                        sm))
                  items (acc, sm)).2.1).
  { clear HP. induction items as [|n items IH]; intros acc' sm HP; [done|].
    cbn [fold_left]. apply IH. by apply dispatch_preserves. }
  specialize (H acc (stores, m') HP).
  destruct (fold_left _ items _) as [namespaceSet sm]. done.
Qed.

Lemma synchronizePolicies_preserves stores (m : Machine W) :
  P stores → P (synchronizePolicies stores m).1.
Proof.
  intros HP. unfold synchronizePolicies.
  destruct (policyNamespacer_List (world m)) as [[l|err] w]; [|done].
  by apply (dispatch_all_preserves _ l (stores, _)).
Qed.

Lemma synchronizePolicyBindings_preserves stores (m : Machine W) :
  P stores → P (synchronizePolicyBindings stores m).1.
Proof.
  intros HP. unfold synchronizePolicyBindings.
  destruct (policyBindingNamespacer_List (world m)) as [[l|err] w]; [|done].
  by apply (dispatch_all_preserves _ l (stores, _)).
Qed.

Lemma synchronize_preserves (m : Machine W) :
  P (live (ac m)) → P (live (ac (synchronize m))).
Proof.
  intros HP. unfold synchronize.
  destruct (SkipSynchronize _ _ _ _) as [[] currentState]; [done|].
  destruct (invalidateCache m) as [invalidate m1].
  set (stores0 := if invalidate then NewStores else live (ac m)).
  assert (H0 : P stores0) by (subst stores0; by destruct invalidate).
  clearbody stores0.
  pose proof (synchronizeNamespaces_preserves stores0 m1 H0) as H1.
  destruct (synchronizeNamespaces stores0 m1) as [[known stores1] m2].
  pose proof (synchronizePolicies_preserves stores1 m2 H1) as H2.
  destruct (synchronizePolicies stores1 m2) as [stores2 m3].
  pose proof (synchronizePolicyBindings_preserves stores2 m3 H2) as H3.
  destruct (synchronizePolicyBindings stores2 m3) as [stores3 m4].
  pose proof (P_purge (allKnownNamespaces (ac m4)) known stores3 m4 H3) as H4.
  destruct (purgeDeletedNamespaces _ known stores3 m4) as [stores4 m5].
  done.
Qed.
End Preserved.

Lemma synchronize_consistent (m : Machine W) :
  consistent (live (ac m)) → consistent (live (ac (synchronize m))).
Proof.
  apply synchronize_preserves.
  - apply consistent_NewStores.
  - apply syncRequest_consistent.
  - apply purgeDeletedNamespaces_consistent.
Qed.

(** I3: when a cycle is not skipped, every review record it leaves is keyed
    by a namespace of the known-namespace set it leaves; lastState is the
    composite token read at the start of the cycle. *)
Lemma synchronize_known (m : Machine W) :
  consistent (live (ac m)) →
  (SkipSynchronize (skip (ac m)) (lastState (ac m))
     [namespaces_LastSyncResourceVersion; policyLastSyncResourceVersioner]
     (world m)).1 = false →
  (∀ k, is_Some (reviewRecordStore (live (ac (synchronize m))) !! k) →
        k ∈ allKnownNamespaces (ac (synchronize m)))
  ∧ lastState (ac (synchronize m))
    = (SkipSynchronize (skip (ac m)) (lastState (ac m))
         [namespaces_LastSyncResourceVersion; policyLastSyncResourceVersioner]
         (world m)).2.
Proof.
  intros Hc Hskip. unfold synchronize.
  destruct (SkipSynchronize _ _ _ _) as [skip_ currentState].
  simpl in Hskip. subst skip_.
  destruct (invalidateCache m) as [invalidate m1].
  set (stores0 := if invalidate then NewStores else live (ac m)).
  assert (H0 : consistent stores0).
  { subst stores0. destruct invalidate; [apply consistent_NewStores|done]. }
  clearbody stores0.
  pose proof (synchronizeNamespaces_preserves consistent
                syncRequest_consistent stores0 m1 H0) as H1.
  destruct (synchronizeNamespaces stores0 m1) as [[known stores1] m2].
  pose proof (synchronizePolicies_preserves consistent
                syncRequest_consistent stores1 m2 H1) as H2.
  destruct (synchronizePolicies stores1 m2) as [stores2 m3].
  pose proof (synchronizePolicyBindings_preserves consistent
                syncRequest_consistent stores2 m3 H2) as H3.
  destruct (synchronizePolicyBindings stores2 m3) as [stores3 m4].
  destruct (purge_stores_spec (Store.List (reviewRecordStore stores3)) known
              stores3 H3 (Permutation_refl _)) as (_ & Hrs & _).
  unfold purgeDeletedNamespaces, purgeDeletedNamespacesFrom. simpl.
  split; [|done].
  intros k [rr Hk]. rewrite Hrs in Hk. by case_decide.
Qed.

(** C9: I2 is an invariant.  On subject stores that are keyed by subject
    and hold no record with an empty namespace set, each of
    deleteNamespaceFromSubjects, addSubjectsToNamespace, syncRequest,
    purgeDeletedNamespaces and a whole synchronize cycle leaves subject
    stores that are again keyed by subject and hold no record with an
    empty namespace set. *)
Theorem no_empty_subject_invariant stores :
  tidy stores →
  (∀ subjects ns,
     no_empty_subject
       (deleteNamespaceFromSubjects (userSubjectRecordStore stores) subjects ns)
     ∧ no_empty_subject
         (addSubjectsToNamespace (userSubjectRecordStore stores) subjects ns)
     ∧ no_empty_subject
         (deleteNamespaceFromSubjects (groupSubjectRecordStore stores)
            subjects ns)
     ∧ no_empty_subject
         (addSubjectsToNamespace (groupSubjectRecordStore stores) subjects ns))
  ∧ (∀ request (m : Machine W), tidy (syncRequest request stores m).1.2)
  ∧ (∀ old new (m : Machine W),
       tidy (purgeDeletedNamespaces old new stores m).1)
  ∧ (∀ m : Machine W, live (ac m) = stores → tidy (live (ac (synchronize m)))).
Proof.
  intros Ht. split; [|split; [|split]].
  - destruct Ht as (Hku & Hkg & Hnu & Hng). intros subjects ns.
    split; [by apply deleteNamespaceFromSubjects_spec|].
    split; [by apply addSubjectsToNamespace_spec|].
    split; [by apply deleteNamespaceFromSubjects_spec|].
    by apply addSubjectsToNamespace_spec.
  - intros request m. by apply syncRequest_tidy.
  - intros old new m. by apply purgeDeletedNamespacesFrom_tidy.
  - intros m <-. apply synchronize_preserves; [apply tidy_NewStores| | |done].
    + intros. by apply syncRequest_tidy.
    + intros. by apply purgeDeletedNamespacesFrom_tidy.
Qed.
(** ** synchronize *)

(** C7: when the skip oracle reports skip, synchronize returns the machine
    it was given: lastState, allKnownNamespaces, the cluster version sets,
    the three stores, the watchers and the handled errors are what they
    were, and so is the world, whose reviewer and listers have not been
    called. *)
Theorem synchronize_skip (m : Machine W) :
  (SkipSynchronize (skip (ac m)) (lastState (ac m))
     [namespaces_LastSyncResourceVersion; policyLastSyncResourceVersioner]
     (world m)).1 = true →
  synchronize m = m.
Proof.
  intros Hskip. unfold synchronize.
  destruct (SkipSynchronize _ _ _ _) as [skip_ currentState].
  simpl in Hskip. by subst skip_.
Qed.

(** The stateless oracle reports skip exactly when lastState is the current
    composite token. *)
Lemma stateless_skip_iff (m : Machine W) :
  skip (ac m) = statelessSkipSynchronizer →
  (SkipSynchronize (skip (ac m)) (lastState (ac m))
     [namespaces_LastSyncResourceVersion; policyLastSyncResourceVersioner]
     (world m)).1 = true
  ↔ lastState (ac m)
    = namespaces_LastSyncResourceVersion (world m) +:+ ","
      +:+ policyLastSyncResourceVersioner (world m).
Proof.
  intros ->. simpl. rewrite bool_decide_eq_true. split; intros H; by rewrite H.
Qed.

(** ** invalidateCache *)

Lemma versionsChanged_iff (stored temporary : gset string) :
  versionsChanged stored temporary = true ↔ stored ≠ temporary.
Proof.
  unfold versionsChanged. rewrite orb_true_iff, !negb_true_iff.
  rewrite bool_decide_eq_false, <- not_true_iff_false, sets_HasAll_spec.
  split.
  - intros [Hsize|Hall] ->; [done|]. apply Hall. intros x.
    by rewrite sets_List_elem_of.
  - intros Hne. destruct (decide (size stored = size temporary)) as [Hs|Hs];
      [right|by left].
    intros Hall. apply Hne. symmetry.
    apply set_subseteq_size_eq; [|lia].
    intros x Hx. apply Hall. by rewrite sets_List_elem_of.
Qed.

Lemma insert_all_spec {A} (f : A → string) (l : list A) (t : nat)
    (h : list (gset string)) :
  fold_left (fun h x => alter (fun s => s ∪ {[f x]}) t h) l h
  = alter (fun s => s ∪ list_to_set (f <$> l)) t h.
Proof.
  revert h. induction l as [|x l IH]; intros h; cbn [fold_left].
  - rewrite fmap_nil, list_to_set_nil. symmetry.
    apply list_alter_id. intros s. set_solver.
  - rewrite IH, list_alter_alter_eq. apply list_alter_ext; [|done].
    intros s _. rewrite fmap_cons, list_to_set_cons. simpl. set_solver.
Qed.
Lemma versionsChanged_decide (stored temporary : gset string) :
  versionsChanged stored temporary
  = bool_decide (stored ≠ temporary).
Proof.
  destruct (versionsChanged stored temporary) eqn:Hv; symmetry.
  - apply bool_decide_eq_true. by apply versionsChanged_iff.
  - apply bool_decide_eq_false. rewrite <- versionsChanged_iff. by rewrite Hv.
Qed.

(** What invalidateCache answers and what it leaves in the two stored
    version sets, when both listers answer.  The answer is right, and so is
    the stored binding set; the stored policy set is right only when the
    policy versions did not change: otherwise it names the temporary set,
    which has been emptied and refilled with the binding versions. *)
Lemma invalidateCache_spec (m : Machine W) cps cpbs w1 w2 :
  clusterPolicyResourceVersions (ac m) < length (stringSets m) →
  clusterBindingResourceVersions (ac m) < length (stringSets m) →
  clusterPolicyLister_List (world m) = (Ok cps, w1) →
  clusterPolicyBindingLister_List w1 = (Ok cpbs, w2) →
  let policyVersions : gset string := list_to_set (cp_ResourceVersion <$> cps) in
  let bindingVersions : gset string :=
    list_to_set (cpb_ResourceVersion <$> cpbs) in
  let storedPolicy := stringSets m !!! clusterPolicyResourceVersions (ac m) in
  let storedBinding := stringSets m !!! clusterBindingResourceVersions (ac m) in
  let result := invalidateCache m in
  (result.1 = true
   ↔ storedPolicy ≠ policyVersions ∨ storedBinding ≠ bindingVersions)
  ∧ stringSets result.2 !!! clusterBindingResourceVersions (ac result.2)
    = bindingVersions
  ∧ stringSets result.2 !!! clusterPolicyResourceVersions (ac result.2)
    = (if decide (storedPolicy = policyVersions) then policyVersions
       else bindingVersions).
Proof.
  intros HP HB Hcp Hcpb P B oldP oldB result. subst result.
  unfold invalidateCache. rewrite Hcp. simpl. rewrite Hcpb. simpl.
  rewrite !insert_all_spec.
  set (t := length (stringSets m)) in *.
  set (h1 := (stringSets m ++ [sets_NewString []])%list).
  assert (Ht : t < length h1) by (subst h1 t; rewrite length_app; simpl; lia).
  set (h2 := alter (fun s => s ∪ list_to_set (cp_ResourceVersion <$> cps)) t h1).
  assert (Ht2 : t < length h2) by (subst h2; by rewrite length_alter).
  assert (H2t : h2 !!! t = P).
  { subst h2. rewrite list_lookup_total_alter_eq by done.
    subst h1 t. rewrite lookup_total_app_r by done.
    rewrite Nat.sub_diag. simpl. unfold sets_NewString. set_solver. }
  assert (H2i : ∀ i, i < t → h2 !!! i = stringSets m !!! i).
  { intros i Hi. subst h2. rewrite list_lookup_total_alter_ne by lia.
    subst h1. by rewrite lookup_total_app_l. }
  rewrite H2t, (H2i _ HP). fold oldP.
  set (h3 := alter (fun s => sets_Delete s (sets_List s)) t h2).
  set (h4 := alter (fun s => s ∪ list_to_set (cpb_ResourceVersion <$> cpbs)) t h3).
  assert (H4t : h4 !!! t = B).
  { subst h4 h3. rewrite list_lookup_total_alter_eq
      by (by rewrite length_alter).
    rewrite list_lookup_total_alter_eq by done. rewrite H2t.
    rewrite sets_Delete_spec.
    assert (list_to_set (sets_List P) = P) as ->; [|set_solver].
    apply set_eq. intros x. by rewrite elem_of_list_to_set, sets_List_elem_of. }
  assert (H4i : ∀ i, i < t → h4 !!! i = stringSets m !!! i).
  { intros i Hi. subst h4 h3. rewrite !list_lookup_total_alter_ne by lia.
    by apply H2i. }
  rewrite !versionsChanged_decide.
  destruct (decide (oldP = P)) as [HeP|HeP].
  - rewrite (bool_decide_eq_false_2 (oldP ≠ P)) by naive_solver. simpl.
    rewrite H4t, (H4i _ HB). fold oldB. rewrite versionsChanged_decide.
    destruct (decide (oldB = B)) as [HeB|HeB].
    + rewrite (bool_decide_eq_false_2 (oldB ≠ B)) by naive_solver. simpl.
      rewrite (H4i _ HB), (H4i _ HP). fold oldP oldB. naive_solver.
    + rewrite (bool_decide_eq_true_2 (oldB ≠ B)) by done. simpl.
      rewrite H4t, (H4i _ HP). fold oldP. naive_solver.
  - rewrite (bool_decide_eq_true_2 (oldP ≠ P)) by done. simpl.
    rewrite H4t, (H4i _ HB). fold oldB. rewrite versionsChanged_decide.
    destruct (decide (oldB = B)) as [HeB|HeB].
    + rewrite (bool_decide_eq_false_2 (oldB ≠ B)) by naive_solver. simpl.
      rewrite (H4i _ HB), H4t. fold oldB. naive_solver.
    + rewrite (bool_decide_eq_true_2 (oldB ≠ B)) by done. simpl.
      rewrite H4t. naive_solver.
Qed.
(** ** List *)

Lemma sublist_StronglySorted {A} (R : relation A) (l1 l2 : list A) :
  l1 `sublist_of` l2 → StronglySorted R l2 → StronglySorted R l1.
Proof.
  induction 1 as [|x l1 l2 Hsub IH|x l1 l2 Hsub IH]; intros Hs.
  - constructor.
  - apply StronglySorted_inv in Hs as [Hs Hx]. constructor; [by apply IH|].
    rewrite Forall_forall in Hx |- *. intros y Hy. apply Hx.
    by eapply elem_of_sublist.
  - apply StronglySorted_inv in Hs as [Hs _]. by apply IH.
Qed.

Lemma gather_spec (u : SubjectStore) (keys : gset string) key :
  gather u keys key = keys ∪ nsOf u key.
Proof.
  unfold gather, nsOf, Store.GetByKey. destruct (u !! key) as [r|].
  - rewrite sets_Insert_spec. f_equal. apply set_eq. intros x.
    by rewrite elem_of_list_to_set, sets_List_elem_of.
  - set_solver.
Qed.

Lemma gather_all_spec (u : SubjectStore) (groups : list string)
    (keys : gset string) x :
  x ∈ fold_left (gather u) groups keys
  ↔ x ∈ keys ∨ ∃ group, group ∈ groups ∧ x ∈ nsOf u group.
Proof.
  revert keys. induction groups as [|g groups IH]; intros keys; cbn [fold_left].
  - set_solver.
  - rewrite IH, gather_spec. set_solver.
Qed.

Lemma List_items_spec allowed (w : W) keys acc items :
  (∀ key n, namespaceStore_GetByKey key w = Ok (Some n) → ns_Name n = key) →
  List_items allowed w keys acc = Ok items →
  ∃ rest,
    items = (acc ++ rest)%list
    ∧ (ns_Name <$> rest) `sublist_of` keys
    ∧ ∀ n, n ∈ rest ↔
           ns_Name n ∈ keys
           ∧ namespaceStore_GetByKey (ns_Name n) w = Ok (Some n)
           ∧ ("*" ∈ allowed ∨ ns_Name n ∈ allowed).
Proof.
  intros Hkey. revert acc.
  induction keys as [|key keys IH]; intros acc Hl; cbn [List_items] in Hl.
  { simplify_eq. exists []. rewrite app_nil_r. split; [done|].
    split; [constructor|]. set_solver. }
  destruct (namespaceStore_GetByKey key w) as [[n|]|err] eqn:Hget; [| |done].
  - pose proof (Hkey _ _ Hget) as Hn.
    destruct (bool_decide ("*" ∈ allowed) || bool_decide (ns_Name n ∈ allowed))
      eqn:Hvis.
    + apply IH in Hl as (rest & -> & Hsub & Hin).
      exists (n :: rest). rewrite <- app_assoc. split; [done|].
      split; [rewrite fmap_cons, Hn; by constructor|].
      intros n'. rewrite elem_of_cons, Hin, elem_of_cons.
      apply orb_true_iff in Hvis.
      rewrite !bool_decide_eq_true in Hvis.
      split.
      * intros [->|?]; [rewrite Hn|]; naive_solver.
      * intros ([Hk|Hk] & Hg & Hv); [left|by auto].
        rewrite Hk, Hget in Hg. by simplify_eq.
    + apply IH in Hl as (rest & -> & Hsub & Hin).
      exists rest. split; [done|]. split; [by constructor|].
      intros n'. rewrite Hin, elem_of_cons.
      apply orb_false_iff in Hvis.
      rewrite !bool_decide_eq_false in Hvis.
      split; [naive_solver|].
      intros ([Hk|Hk] & Hg & Hv); [|by auto].
      rewrite Hk, Hget in Hg. simplify_eq. naive_solver.
  - apply IH in Hl as (rest & -> & Hsub & Hin).
    exists rest. split; [done|]. split; [by constructor|].
    intros n'. rewrite Hin, elem_of_cons.
    split; [naive_solver|].
    intros ([Hk|Hk] & Hg & Hv); [|by auto].
    rewrite Hk, Hget in Hg. by simplify_eq.
Qed.

(** C10: when the namespace store is keyed by namespace name, a list that
    List returns is in strictly ascending byte-wise order of namespace name,
    so no namespace is listed twice; it holds exactly the namespaces that
    the user's subject record or the subject record of one of the user's
    groups lists, that the namespace store has and that the scopes make
    visible. *)
Theorem List_ascending (m : Machine W) (userInfo : userInfo) items :
  (∀ key n, namespaceStore_GetByKey key (world m) = Ok (Some n) →
            ns_Name n = key) →
  List m userInfo = Ok items →
  StronglySorted (strict String.le) (ns_Name <$> items)
  ∧ NoDup (ns_Name <$> items)
  ∧ ∀ n, n ∈ items ↔
         (ns_Name n ∈ nsOf (userSubjectRecordStore (live (ac m)))
                        (GetName userInfo)
          ∨ ∃ group, group ∈ GetGroups userInfo
                     ∧ ns_Name n ∈ nsOf (groupSubjectRecordStore (live (ac m)))
                                     group)
         ∧ namespaceStore_GetByKey (ns_Name n) (world m) = Ok (Some n)
         ∧ ∃ allowedNamespaces,
             ScopesToVisibleNamespaces (GetScopes userInfo) (world m)
             = Ok allowedNamespaces
             ∧ ("*" ∈ allowedNamespaces ∨ ns_Name n ∈ allowedNamespaces).
Proof.
  intros Hkey Hl. unfold List in Hl.
  destruct (ScopesToVisibleNamespaces _ _) as [allowed|err]; [|done].
  apply List_items_spec in Hl as (rest & -> & Hsub & Hin); [|done].
  rewrite app_nil_l.
  split; [eapply sublist_StronglySorted; [done|apply sets_List_sorted]|].
  split; [eapply sublist_NoDup; [apply sets_List_NoDup|done]|].
  intros n. rewrite Hin, sets_List_elem_of, gather_all_spec, gather_spec.
  split.
  - intros (Hk & Hg & Hv). split; [set_solver|]. split; [done|]. by exists allowed.
  - intros (Hk & Hg & allowed' & ? & Hv). simplify_eq. split; [set_solver|done].
Qed.
(** List answers a list whenever the scope evaluator and the reads of the
    namespace store do. *)
Lemma List_items_returns allowed (w : W) keys acc :
  (∀ key, ∃ o, namespaceStore_GetByKey key w = Ok o) →
  ∃ items, List_items allowed w keys acc = Ok items.
Proof.
  intros Hget. revert acc.
  induction keys as [|key keys IH]; intros acc; cbn [List_items]; [by eexists|].
  destruct (Hget key) as [[n|] ->]; [|apply IH].
  destruct (_ || _); apply IH.
Qed.

Lemma List_returns (m : Machine W) (userInfo : userInfo) allowed :
  ScopesToVisibleNamespaces (GetScopes userInfo) (world m) = Ok allowed →
  (∀ key, ∃ o, namespaceStore_GetByKey key (world m) = Ok o) →
  ∃ items, List m userInfo = Ok items.
Proof. intros Hs Hget. unfold List. rewrite Hs. by apply List_items_returns. Qed.
End CacheProperties.

(** ** The properties at work on a concrete upstream *)

(** C4: on a new cache, with one cluster policy at version 10 and one
    cluster policy binding at version 20, invalidateCache reports a change
    and stores the binding versions, but the policy version set it has
    stored is the set of binding versions too: the field shares the
    temporary set that is emptied and refilled for the bindings.  A second
    call with the upstream unchanged reports a change again. *)
Theorem invalidateCache_policy_versions_clobbered :
  let first := invalidateCache (Upstream.NewAuthorizationCache Upstream.bootstrap) in
  let second := invalidateCache first.2 in
  first.1 = true
  ∧ stringSets first.2 !!! clusterBindingResourceVersions (ac first.2)
    = {["20"]}
  ∧ stringSets first.2 !!! clusterPolicyResourceVersions (ac first.2)
    = {["20"]}
  ∧ stringSets first.2 !!! clusterPolicyResourceVersions (ac first.2)
    ≠ {["10"]}
  ∧ clusterPolicyResourceVersions (ac first.2)
    = clusterBindingResourceVersions (ac first.2)
  ∧ second.1 = true.
Proof.
  cbv zeta.
  assert (H : stringSets (invalidateCache
                (Upstream.NewAuthorizationCache Upstream.bootstrap)).2
              !!! clusterPolicyResourceVersions
                    (ac (invalidateCache
                           (Upstream.NewAuthorizationCache Upstream.bootstrap)).2)
              = ({["20"]} : gset string)) by (vm_compute; reflexivity).
  split; [vm_compute; reflexivity|].
  split; [vm_compute; reflexivity|].
  split; [exact H|].
  split; [rewrite H; set_solver|].
  split; vm_compute; reflexivity.
Qed.

Lemma Upstream_keyed_by_name (u : Upstream.t) key n :
  namespaceStore_GetByKey key u = Ok (Some n) → ns_Name n = key.
Proof.
  simpl. unfold Upstream.getByKey. intros H. injection H as H.
  induction (Upstream.namespaces_ u) as [|x l IH]; [done|].
  rewrite fmap_cons in H. simpl in H.
  case_bool_decide; [by simplify_eq|by apply IH].
Qed.

Lemma syncRequest_reviewer_error_witness :
  syncRequest Upstream.requestA NewStores
    (Upstream.NewAuthorizationCache Upstream.reviewerDown)
  = (Some "reviewer down", NewStores,
     set_world (Upstream.record "Review a" Upstream.reviewerDown)
       (Upstream.NewAuthorizationCache Upstream.reviewerDown)).
Proof.
  apply (syncRequest_reviewer_error Upstream.requestA NewStores
           (Upstream.NewAuthorizationCache Upstream.reviewerDown)
           "reviewer down"
           (Upstream.record "Review a" Upstream.reviewerDown)).
  - reflexivity.
  - reflexivity.
Defined.

Lemma syncRequest_evaluation_error_witness :
  (syncRequest Upstream.requestA NewStores
     (Upstream.NewAuthorizationCache Upstream.warning)).1.1
  = Some "rule not found".
Proof.
  apply (syncRequest_evaluation_error Upstream.requestA NewStores
           (Upstream.NewAuthorizationCache Upstream.warning)
           Upstream.halfEvaluated
           (Upstream.record "Review a" Upstream.warning)).
  - apply consistent_NewStores.
  - reflexivity.
  - reflexivity.
  - simpl. discriminate.
Defined.


Lemma no_empty_subject_invariant_witness :
  tidy (live (ac (synchronize
                    (Upstream.NewAuthorizationCache Upstream.bootstrap)))).
Proof.
  apply (no_empty_subject_invariant NewStores tidy_NewStores).
  reflexivity.
Defined.

Lemma synchronize_skip_witness :
  synchronize Upstream.afterBootstrap = Upstream.afterBootstrap.
Proof.
  apply synchronize_skip. vm_compute. reflexivity.
Defined.

Lemma List_ascending_witness :
  StronglySorted (strict String.le)
    (ns_Name <$> [ {| ns_Name := "a"; ns_ResourceVersion := "1" |};
                   {| ns_Name := "b"; ns_ResourceVersion := "2" |} ]).
Proof.
  apply (List_ascending Upstream.afterBootstrap Upstream.alice).
  - apply Upstream_keyed_by_name.
  - vm_compute. reflexivity.
Defined.

(** ** The end-to-end scenarios *)

(** Bootstrap: alice sees a and b, bob sees b, and the cache is ready. *)
Example scenario_bootstrap :
  nsOf (userSubjectRecordStore (live (ac Upstream.afterBootstrap))) "alice"
  = {["a"; "b"]}
  ∧ nsOf (userSubjectRecordStore (live (ac Upstream.afterBootstrap))) "bob"
    = {["b"]}
  ∧ Upstream.listed Upstream.afterBootstrap Upstream.alice = Some ["a"; "b"]
  ∧ Upstream.listed Upstream.afterBootstrap Upstream.bob = Some ["b"]
  ∧ ReadyForAccess Upstream.afterBootstrap = true.
Proof. repeat split; vm_compute; reflexivity. Qed.

(** Namespace deletion: a is gone from alice's record and from the review
    store, and the watcher has received one notification for a with empty
    sets. *)
Example scenario_namespace_deletion :
  nsOf (userSubjectRecordStore (live (ac Upstream.afterDeletion))) "alice"
  = {["b"]}
  ∧ reviewRecordStore (live (ac Upstream.afterDeletion)) !! "a" = None
  ∧ (∀ w, w ∈ watchers (ac Upstream.afterDeletion) →
          filter (fun n => n_namespace n = "a" ∧ n_users n = ∅) w = [gone "a"]).
Proof.
  split; [vm_compute; reflexivity|]. split; [vm_compute; reflexivity|].
  intros w Hw.
  assert (Hws : watchers (ac Upstream.afterDeletion)
                = [[ {| n_namespace := "a"; n_users := {["alice"]};
                        n_groups := ∅ |};
                     {| n_namespace := "b"; n_users := {["alice"; "bob"]};
                        n_groups := ∅ |};
                     {| n_namespace := "b"; n_users := {["alice"; "bob"]};
                        n_groups := ∅ |};
                     gone "a" ]]) by (vm_compute; reflexivity).
  rewrite Hws in Hw. apply list_elem_of_singleton in Hw as ->.
  vm_compute. reflexivity.
Qed.

(** Subject revocation: bob has no record left and is listed nothing. *)
Example scenario_subject_revocation :
  userSubjectRecordStore (live (ac Upstream.afterRevocation)) !! "bob" = None
  ∧ Upstream.listed Upstream.afterRevocation Upstream.bob = Some [].
Proof. split; vm_compute; reflexivity. Qed.

(** Scope limit: alice, restricted to b, is listed b alone. *)
Example scenario_scope_limit :
  Upstream.listed Upstream.scoped Upstream.alice = Some ["b"].
Proof. vm_compute. reflexivity. Qed.

(** Skip cycle: a second tick with no upstream change calls neither the
    reviewer nor a lister and keeps lastState. *)
Example scenario_skip_cycle :
  Upstream.journal (world (synchronize Upstream.afterBootstrap))
  = Upstream.journal (world Upstream.afterBootstrap)
  ∧ lastState (ac (synchronize Upstream.afterBootstrap)) = "2,102000".
Proof. split; vm_compute; reflexivity. Qed.

(** Version accumulation: the namespace pass, the policy pass and the
    binding pass each review a, and the record ends with all three versions;
    a later cycle over the same objects makes no review. *)
Example scenario_versions_accumulate :
  request_of <$> reviewRecordStore (live (ac Upstream.afterGoverned)) !! "a"
  = Some {| namespace := "a"; namespaceResourceVersion := "1";
            policyUIDToResourceVersion := {["p1" := "7"]};
            policyBindingUIDToResourceVersion := {["b1" := "9"]} |}
  ∧ Upstream.journal (world Upstream.afterGoverned)
    = ["clusterPolicies.List"; "clusterPolicyBindings.List";
       "namespaces.List"; "Review a"; "policies.List"; "Review a";
       "policyBindings.List"; "Review a"]
  ∧ Upstream.journal (world Upstream.afterResync)
    = ["clusterPolicies.List"; "clusterPolicyBindings.List";
       "namespaces.List"; "policies.List"; "policyBindings.List"]
  ∧ live (ac Upstream.afterResync) = live (ac Upstream.afterGoverned).
Proof. repeat split; vm_compute; reflexivity. Qed.

(** * Further properties of the cache *)

Section Frames.
Context {W : Type} `{!Collaborators W}.

Lemma fmap_app_nil (ws : list CacheWatcher) :
  fmap (fun w : CacheWatcher => (w ++ [])%list) ws = ws.
Proof.
  induction ws as [|w ws IH]; [done|].
  by rewrite fmap_cons, IH, app_nil_r.
Qed.

Lemma passes_on_refl (m : Machine W) : passes_on [] m m.
Proof. unfold passes_on. by rewrite fmap_app_nil. Qed.

Lemma passes_on_trans sent1 sent2 (m1 m2 m3 : Machine W) :
  passes_on sent1 m1 m2 → passes_on sent2 m2 m3 →
  passes_on (sent1 ++ sent2) m1 m3.
Proof.
  unfold passes_on.
  intros (Hw1 & Hk1 & Hl1 & Hb1 & Hp1 & Hs1 & Ht1 & Hh1 & He1)
         (Hw2 & Hk2 & Hl2 & Hb2 & Hp2 & Hs2 & Ht2 & Hh2 & He2).
  repeat split; try congruence; [|by etrans].
  rewrite Hw2, Hw1, <- list_fmap_compose. apply list_fmap_ext.
  intros _ w _. simpl. by rewrite app_assoc.
Qed.

Lemma passes_on_set_world w (m : Machine W) : passes_on [] m (set_world w m).
Proof. unfold passes_on. simpl. by rewrite fmap_app_nil. Qed.

Lemma passes_on_HandleError err (m : Machine W) :
  passes_on [] m (HandleError err m).
Proof.
  unfold passes_on. simpl. rewrite fmap_app_nil.
  repeat split; try done. by apply prefix_app_r.
Qed.

Lemma passes_on_notifyWatchers ns lk us gs (m : Machine W) :
  passes_on [{| n_namespace := ns; n_users := us; n_groups := gs |}] m
    (notifyWatchers ns lk us gs m).
Proof. unfold passes_on. simpl. done. Qed.

(** syncRequest sends nothing, or the one notification of the review it
    made. *)
Lemma syncRequest_passes_on request stores (m : Machine W) :
  ∃ sent,
    passes_on sent m (syncRequest request stores m).2
    ∧ (sent = []
       ∨ ∃ review w,
           reviewer_Review (namespace request) (world m) = (Ok review, w)
           ∧ sent = [reviewed_notification (namespace request) review]).
Proof.
  unfold syncRequest, lastKnown, Store.GetByKey.
  assert (Hlk : match reviewRecordStore stores !! namespace request with
                | Some obj => Ok (Some obj)
                | None => Ok None
                end = Ok (reviewRecordStore stores !! namespace request))
    by (by destruct (_ !! namespace request)).
  rewrite Hlk. clear Hlk.
  destruct (skipReview _ _).
  { exists []. split; [apply passes_on_refl|by left]. }
  destruct (reviewer_Review _ _) as [[review|err] w] eqn:Hrev.
  - exists [reviewed_notification (namespace request) review]. split.
    + assert (Hp : passes_on
                     ([] ++ [reviewed_notification (namespace request) review])
                     m
                     (notifyWatchers (namespace request)
                        (reviewRecordStore stores !! namespace request)
                        (sets_NewString (Users review))
                        (sets_NewString (Groups review)) (set_world w m))).
      { eapply passes_on_trans; [apply passes_on_set_world|].
        apply passes_on_notifyWatchers. }
      destruct (reviewRecordStore stores !! namespace request);
        simpl; case_bool_decide; exact Hp.
    + right. by exists review, w.
  - exists []. split; [apply passes_on_set_world|by left].
Qed.

Lemma dispatch_passes_on request (sm : Stores * Machine W) :
  ∃ sent, passes_on sent sm.2 (dispatch request sm).2.
Proof.
  unfold dispatch.
  destruct (syncRequest_passes_on request sm.1 sm.2) as (sent & Hp & _).
  destruct (syncRequest request sm.1 sm.2) as [[[err|] stores] m]; simpl in *.
  - exists (sent ++ []). eapply passes_on_trans; [done|].
    apply passes_on_HandleError.
  - by exists sent.
Qed.

Lemma dispatch_all_passes_on {A} (mk : A → reviewRequest) (l : list A)
    (sm : Stores * Machine W) :
  ∃ sent,
    passes_on sent sm.2 (fold_left (fun sm a => dispatch (mk a) sm) l sm).2.
Proof.
  revert sm. induction l as [|a l IH]; intros sm; cbn [fold_left].
  { exists []. apply passes_on_refl. }
  destruct (dispatch_passes_on (mk a) sm) as (sent1 & H1).
  destruct (IH (dispatch (mk a) sm)) as (sent2 & H2).
  exists (sent1 ++ sent2). by eapply passes_on_trans.
Qed.

Lemma synchronizeNamespaces_spec stores (m : Machine W) items w :
  namespaceStore_List (world m) = (items, w) →
  (synchronizeNamespaces stores m).1.1 = list_to_set (ns_Name <$> items)
  ∧ ∃ sent, passes_on sent m (synchronizeNamespaces stores m).2.
Proof.
  intros Hl. unfold synchronizeNamespaces. rewrite Hl.
  assert (H : ∀ (acc : gset string) (sm : Stores * Machine W),
             let r :=
               fold_left
                 (fun '(namespaceSet, sm) namespace =>
                    (namespaceSet ∪ {[ns_Name namespace]},
                     dispatch
                       {| namespace := ns_Name namespace;
                          namespaceResourceVersion :=
                            ns_ResourceVersion namespace;
                          policyUIDToResourceVersion := ∅;
                          policyBindingUIDToResourceVersion := ∅ |}
                       sm))
                 items (acc, sm) in
             r.1 = acc ∪ list_to_set (ns_Name <$> items)
             ∧ ∃ sent, passes_on sent sm.2 r.2.2).
  { clear Hl. induction items as [|n items IH]; intros acc sm; cbn [fold_left].
    - simpl. split; [set_solver|]. exists []. apply passes_on_refl.
    - destruct (IH (acc ∪ {[ns_Name n]})
                  (dispatch
                     {| namespace := ns_Name n;
                        namespaceResourceVersion := ns_ResourceVersion n;
                        policyUIDToResourceVersion := ∅;
                        policyBindingUIDToResourceVersion := ∅ |} sm))
        as (Hset & sent2 & H2).
      split.
      + rewrite Hset, fmap_cons, list_to_set_cons. set_solver.
      + destruct (dispatch_passes_on
                    {| namespace := ns_Name n;
                       namespaceResourceVersion := ns_ResourceVersion n;
                       policyUIDToResourceVersion := ∅;
                       policyBindingUIDToResourceVersion := ∅ |} sm)
          as (sent1 & H1).
        exists (sent1 ++ sent2). by eapply passes_on_trans. }
  specialize (H (sets_NewString []) (stores, set_world w m)).
  destruct (fold_left _ items _) as [namespaceSet sm].
  simpl in H. destruct H as (Hset & sent & Hp). simpl.
  split; [rewrite Hset; unfold sets_NewString; set_solver|].
  exists ([] ++ sent). eapply passes_on_trans; [apply passes_on_set_world|done].
Qed.

Lemma synchronizePolicies_passes_on stores (m : Machine W) :
  ∃ sent, passes_on sent m (synchronizePolicies stores m).2.
Proof.
  unfold synchronizePolicies.
  destruct (policyNamespacer_List (world m)) as [[l|err] w].
  - destruct (dispatch_all_passes_on
                (fun policy =>
                   {| namespace := p_Namespace policy;
                      namespaceResourceVersion := "";
                      policyUIDToResourceVersion :=
                        {[p_UID policy := p_ResourceVersion policy]};
                      policyBindingUIDToResourceVersion := ∅ |})
                l (stores, set_world w m)) as (sent & Hp).
    exists ([] ++ sent).
    eapply passes_on_trans; [apply passes_on_set_world|done].
  - exists ([] ++ []). simpl snd.
    eapply passes_on_trans; [apply passes_on_set_world|].
    apply passes_on_HandleError.
Qed.

Lemma synchronizePolicyBindings_passes_on stores (m : Machine W) :
  ∃ sent, passes_on sent m (synchronizePolicyBindings stores m).2.
Proof.
  unfold synchronizePolicyBindings.
  destruct (policyBindingNamespacer_List (world m)) as [[l|err] w].
  - destruct (dispatch_all_passes_on
                (fun policyBinding =>
                   {| namespace := pb_Namespace policyBinding;
                      namespaceResourceVersion := "";
                      policyUIDToResourceVersion := ∅;
                      policyBindingUIDToResourceVersion :=
                        {[pb_UID policyBinding
                          := pb_ResourceVersion policyBinding]} |})
                l (stores, set_world w m)) as (sent & Hp).
    exists ([] ++ sent).
    eapply passes_on_trans; [apply passes_on_set_world|done].
  - exists ([] ++ []). simpl snd.
    eapply passes_on_trans; [apply passes_on_set_world|].
    apply passes_on_HandleError.
Qed.

Lemma purgeDeletedNamespacesFrom_passes_on items old new stores
    (m : Machine W) :
  passes_on (gone <$> elements (old ∖ new)) m
    (purgeDeletedNamespacesFrom items old new stores m).2.
Proof.
  unfold purgeDeletedNamespacesFrom. cbn [snd].
  rewrite notify_gone_spec. unfold passes_on. simpl. done.
Qed.
Lemma prefix_alter_beyond (f : gset string → gset string) t
    (h h' : list (gset string)) :
  h `prefix_of` h' → length h ≤ t → h `prefix_of` alter f t h'.
Proof.
  intros [k ->] Hle. rewrite alter_app_r_alt by done. by apply prefix_app_r.
Qed.

(** invalidateCache touches the two version-set fields, the heap, the error
    log and the world, nothing else; the sets that were in the heap stay as
    they are, and valid addresses stay valid. *)
Lemma invalidateCache_frame (m : Machine W) :
  let r := invalidateCache m in
  watchers (ac r.2) = watchers (ac m)
  ∧ allKnownNamespaces (ac r.2) = allKnownNamespaces (ac m)
  ∧ live (ac r.2) = live (ac m)
  ∧ skip (ac r.2) = skip (ac m)
  ∧ lastState (ac r.2) = lastState (ac m)
  ∧ stringSets m `prefix_of` stringSets r.2
  ∧ handledErrors m `prefix_of` handledErrors r.2
  ∧ (addresses_valid m → addresses_valid r.2).
Proof.
  unfold invalidateCache, addresses_valid.
  destruct (clusterPolicyLister_List (world m)) as [[cps|err] w1]; simpl.
  2:{ repeat split; try done; [by apply prefix_app_r|tauto|tauto]. }
  rewrite insert_all_spec.
  set (t := length (stringSets m)).
  set (h2 := alter _ t (stringSets m ++ [sets_NewString []])%list).
  assert (Hp2 : stringSets m `prefix_of` h2).
  { subst h2. apply prefix_alter_beyond; [|done]. by apply prefix_app_r. }
  assert (Hl2 : length h2 = S t).
  { subst h2 t. rewrite length_alter, length_app. simpl. lia. }
  destruct (versionsChanged _ _); simpl;
    (destruct (clusterPolicyBindingLister_List w1) as [[cpbs|err] w2]; simpl;
     [ rewrite insert_all_spec;
       set (h4 := alter _ t (alter _ t h2));
       assert (Hp4 : stringSets m `prefix_of` h4)
         by (subst h4; do 2 (apply prefix_alter_beyond; [|done]); done);
       assert (Hl4 : length h4 = S t)
         by (subst h4; by rewrite !length_alter);
       destruct (versionsChanged _ _); simpl;
       repeat split; try done; lia
     | repeat split; try done; try (by apply prefix_app_r); lia ]).
Qed.

(** A cycle that is not skipped ends with the composite token as lastState
    and the names the namespace store listed as allKnownNamespaces; it keeps
    the skip oracle; every watcher has received the same further
    notifications; the error log and the heap of version sets have only
    grown. *)
Lemma synchronize_frame (m : Machine W) :
  (SkipSynchronize (skip (ac m)) (lastState (ac m))
     [namespaces_LastSyncResourceVersion; policyLastSyncResourceVersioner]
     (world m)).1 = false →
  let m' := synchronize m in
  lastState (ac m')
  = (SkipSynchronize (skip (ac m)) (lastState (ac m))
       [namespaces_LastSyncResourceVersion; policyLastSyncResourceVersioner]
       (world m)).2
  ∧ allKnownNamespaces (ac m')
    = list_to_set
        (ns_Name <$> (namespaceStore_List (world (invalidateCache m).2)).1)
  ∧ skip (ac m') = skip (ac m)
  ∧ (∃ sent,
       watchers (ac m') = fmap (fun w => (w ++ sent)%list) (watchers (ac m)))
  ∧ stringSets m `prefix_of` stringSets m'
  ∧ handledErrors m `prefix_of` handledErrors m'
  ∧ (addresses_valid m → addresses_valid m').
Proof.
  intros Hskip. unfold synchronize.
  destruct (SkipSynchronize _ _ _ _) as [skip_ currentState].
  simpl in Hskip. subst skip_.
  pose proof (invalidateCache_frame m) as Hi. cbv zeta in Hi.
  destruct (invalidateCache m) as [invalidate m1]. simpl in Hi.
  destruct Hi as (Hw0 & _ & _ & Hs0 & _ & Hh0 & He0 & Hv0).
  set (stores0 := if invalidate then NewStores else live (ac m)).
  clearbody stores0.
  destruct (namespaceStore_List (world m1)) as [items w] eqn:Hl.
  destruct (synchronizeNamespaces_spec stores0 m1 items w Hl)
    as (Hset & sent1 & H1).
  destruct (synchronizeNamespaces stores0 m1) as [[known stores1] m2].
  simpl in Hset, H1. subst known.
  destruct (synchronizePolicies_passes_on stores1 m2) as (sent2 & H2).
  destruct (synchronizePolicies stores1 m2) as [stores2 m3]. simpl in H2.
  destruct (synchronizePolicyBindings_passes_on stores2 m3) as (sent3 & H3).
  destruct (synchronizePolicyBindings stores2 m3) as [stores3 m4]. simpl in H3.
  pose proof (purgeDeletedNamespacesFrom_passes_on
                (Store.List (reviewRecordStore stores3))
                (allKnownNamespaces (ac m4))
                (list_to_set (ns_Name <$> items)) stores3 m4) as H4.
  fold (purgeDeletedNamespaces (allKnownNamespaces (ac m4))
          (list_to_set (ns_Name <$> items)) stores3 m4) in H4.
  destruct (purgeDeletedNamespaces _ _ stores3 m4) as [stores4 m5].
  simpl in H4.
  pose proof (passes_on_trans _ _ _ _ _
                (passes_on_trans _ _ _ _ _
                   (passes_on_trans _ _ _ _ _ H1 H2) H3) H4)
    as (Hw & _ & _ & Hb & Hp & Hs & _ & Hh & He).
  unfold set_ac, set_lastState, set_allKnownNamespaces, set_live. simpl.
  split; [done|]. split; [by rewrite Hl|]. split; [congruence|].
  split; [eexists; rewrite Hw, Hw0; done|].
  split; [by rewrite Hh|]. split; [by etrans|].
  unfold addresses_valid in *. simpl. rewrite Hh, Hb, Hp. done.
Qed.
End Frames.

Section Readiness.
Context {W : Type} `{!Collaborators W}.

(** The composite token the stateless oracle computes for a cycle. *)
Lemma composite_token (prevState : string) (w : W) :
  SkipSynchronize statelessSkipSynchronizer prevState
    [namespaces_LastSyncResourceVersion; policyLastSyncResourceVersioner] w
  = (bool_decide
       (namespaces_LastSyncResourceVersion w +:+ ","
        +:+ policyLastSyncResourceVersioner w = prevState),
     namespaces_LastSyncResourceVersion w +:+ ","
     +:+ policyLastSyncResourceVersioner w).
Proof. reflexivity. Qed.

Lemma composite_token_nonempty (a b : string) : a +:+ "," +:+ b ≠ "".
Proof. by destruct a. Qed.

(** With the stateless oracle, lastState after a cycle is the composite
    token read at its start, skipped or not, and the oracle stays. *)
Lemma synchronize_stateless (m : Machine W) :
  skip (ac m) = statelessSkipSynchronizer →
  lastState (ac (synchronize m))
  = namespaces_LastSyncResourceVersion (world m) +:+ ","
    +:+ policyLastSyncResourceVersioner (world m)
  ∧ skip (ac (synchronize m)) = statelessSkipSynchronizer.
Proof.
  intros Hs.
  destruct (SkipSynchronize (skip (ac m)) (lastState (ac m))
              [namespaces_LastSyncResourceVersion;
               policyLastSyncResourceVersioner] (world m)).1 eqn:Hskip.
  - assert (synchronize m = m) as ->.
    { unfold synchronize. destruct (SkipSynchronize _ _ _ _) as [skip_ cur].
      simpl in Hskip. by subst skip_. }
    split; [|done]. rewrite Hs, composite_token in Hskip. simpl in Hskip.
    by apply bool_decide_eq_true in Hskip.
  - destruct (synchronize_frame m Hskip) as (Hl & _ & Hk & _).
    rewrite Hl, Hk, Hs, composite_token. done.
Qed.

(** X1: once Run has selected the stateless oracle, the cache is ready after
    every call of synchronize, skipped or not, and lastState is the composite
    token namespaces-version "," policy-versions read at the start of the
    call. *)
Theorem stateless_cycle_makes_ready (m : Machine W) :
  skip (ac m) = statelessSkipSynchronizer →
  ReadyForAccess (synchronize m) = true
  ∧ lastState (ac (synchronize m))
    = namespaces_LastSyncResourceVersion (world m) +:+ ","
      +:+ policyLastSyncResourceVersioner (world m).
Proof.
  intros Hs. destruct (synchronize_stateless m Hs) as (Hl & _).
  split; [|done]. unfold ReadyForAccess. rewrite Hl.
  apply bool_decide_eq_true, length_pos_nonempty, composite_token_nonempty.
Qed.

(** X2: with the never-skip oracle a new cache starts with, synchronize runs
    the whole cycle every time (allKnownNamespaces becomes the set of names
    the namespace store lists) but leaves lastState empty, so the cache does
    not become ready and the oracle stays the never-skip one. *)
Theorem never_skip_cycle_not_ready (m : Machine W) :
  skip (ac m) = neverSkipSynchronizer →
  ReadyForAccess (synchronize m) = false
  ∧ lastState (ac (synchronize m)) = ""
  ∧ skip (ac (synchronize m)) = neverSkipSynchronizer
  ∧ allKnownNamespaces (ac (synchronize m))
    = list_to_set
        (ns_Name <$> (namespaceStore_List (world (invalidateCache m).2)).1).
Proof.
  intros Hs.
  assert (Hskip : (SkipSynchronize (skip (ac m)) (lastState (ac m))
                     [namespaces_LastSyncResourceVersion;
                      policyLastSyncResourceVersioner] (world m)).1 = false)
    by (by rewrite Hs).
  destruct (synchronize_frame m Hskip) as (Hl & Hk & Hsk & _).
  rewrite Hs in Hl. simpl in Hl.
  unfold ReadyForAccess. rewrite Hl, Hsk, Hk. done.
Qed.

(** X3: with the stateless oracle, when the version tokens read after a
    cycle are the ones read at its start, the next call of synchronize is
    skipped: it returns the machine unchanged. *)
Theorem unchanged_tokens_skip_next (m : Machine W) :
  skip (ac m) = statelessSkipSynchronizer →
  namespaces_LastSyncResourceVersion (world (synchronize m))
  = namespaces_LastSyncResourceVersion (world m) →
  policyLastSyncResourceVersioner (world (synchronize m))
  = policyLastSyncResourceVersioner (world m) →
  synchronize (synchronize m) = synchronize m.
Proof.
  intros Hs Hn Hp. destruct (synchronize_stateless m Hs) as (Hl & Hk).
  set (m' := synchronize m) in *. unfold synchronize at 1.
  rewrite Hk, composite_token, Hl, Hn, Hp.
  by rewrite bool_decide_eq_true_2.
Qed.

(** X4: in one call of synchronize every watcher is told the same further
    notifications in the same order, on top of what it had received; no
    watcher is added or dropped; the error log and the heap of version sets
    only grow, the sets that were in the heap staying as they were. *)
Theorem synchronize_fans_out (m : Machine W) :
  (∃ sent,
     watchers (ac (synchronize m))
     = fmap (fun w => (w ++ sent)%list) (watchers (ac m)))
  ∧ length (watchers (ac (synchronize m))) = length (watchers (ac m))
  ∧ handledErrors m `prefix_of` handledErrors (synchronize m)
  ∧ stringSets m `prefix_of` stringSets (synchronize m).
Proof.
  destruct (SkipSynchronize (skip (ac m)) (lastState (ac m))
              [namespaces_LastSyncResourceVersion;
               policyLastSyncResourceVersioner] (world m)).1 eqn:Hskip.
  - assert (synchronize m = m) as ->.
    { unfold synchronize. destruct (SkipSynchronize _ _ _ _) as [skip_ cur].
      simpl in Hskip. by subst skip_. }
    split; [exists []; by rewrite fmap_app_nil|done].
  - destruct (synchronize_frame m Hskip) as (_ & _ & _ & (sent & Hw) & Hh & He & _).
    split; [by exists sent|]. split; [|done].
    by rewrite Hw, length_fmap.
Qed.

(** X5: a cycle that is not skipped, on consistent stores, ends with
    allKnownNamespaces being the names the namespace store listed, every
    review record keyed by one of them, and every namespace a user or group
    is listed being one of them. *)
Theorem synchronize_keeps_only_known (m : Machine W) :
  consistent (live (ac m)) →
  (SkipSynchronize (skip (ac m)) (lastState (ac m))
     [namespaces_LastSyncResourceVersion; policyLastSyncResourceVersioner]
     (world m)).1 = false →
  let m' := synchronize m in
  allKnownNamespaces (ac m')
  = list_to_set
      (ns_Name <$> (namespaceStore_List (world (invalidateCache m).2)).1)
  ∧ (∀ k, is_Some (reviewRecordStore (live (ac m')) !! k) →
          k ∈ allKnownNamespaces (ac m'))
  ∧ (∀ s ns, ns ∈ nsOf (userSubjectRecordStore (live (ac m'))) s →
             ns ∈ allKnownNamespaces (ac m'))
  ∧ (∀ s ns, ns ∈ nsOf (groupSubjectRecordStore (live (ac m'))) s →
             ns ∈ allKnownNamespaces (ac m')).
Proof.
  intros Hc Hskip m'.
  destruct (synchronize_frame m Hskip) as (_ & Hk & _).
  destruct (synchronize_known m Hc Hskip) as (Hr & _).
  pose proof (synchronize_consistent m Hc) as Hc'.
  fold m' in Hk, Hr, Hc'.
  split; [done|]. split; [done|]. split.
  - intros s ns Hin. apply (users_indexed _ Hc') in Hin as (rr & Hl & _).
    apply Hr. by rewrite Hl.
  - intros s ns Hin. apply (groups_indexed _ Hc') in Hin as (rr & Hl & _).
    apply Hr. by rewrite Hl.
Qed.

(** X6: the stores stay consistent over any number of ticks, however the
    upstream moves between them: they are keyed by their key functions, no
    subject record is empty, and a user or group lists a namespace exactly
    when the review record of that namespace names it. *)
Theorem ticks_consistent (upstream : list W) (m : Machine W) :
  consistent (live (ac m)) → consistent (live (ac (ticks upstream m))).
Proof.
  unfold ticks. revert m.
  induction upstream as [|w upstream IH]; intros m Hc; [done|].
  cbn [fold_left]. apply IH. by apply synchronize_consistent.
Qed.
End Readiness.

Section Dispatch.
Context {W : Type} `{!Collaborators W}.

Lemma syncRequest_skipped request stores (m : Machine W) :
  skipReview (Some request)
    (reviewRecordStore stores !! namespace request) = true →
  syncRequest request stores m = (None, stores, m).
Proof.
  intros Hskip. unfold syncRequest, lastKnown, Store.GetByKey.
  destruct (reviewRecordStore stores !! namespace request); by rewrite Hskip.
Qed.

(** What syncRequest returns after a review it made. *)
Lemma syncRequest_reviewed request stores (m : Machine W) review w :
  skipReview (Some request)
    (reviewRecordStore stores !! namespace request) = false →
  reviewer_Review (namespace request) (world m) = (Ok review, w) →
  let r := syncRequest request stores m in
  let ns := namespace request in
  let lk := reviewRecordStore stores !! ns in
  reviewRecordStore r.1.2
  = cacheReviewRecord request lk review (reviewRecordStore stores)
  ∧ (keyed_by_subject (userSubjectRecordStore stores) →
     ∀ t, nsOf (userSubjectRecordStore r.1.2) t
          = if decide (t ∈ Users review)
            then nsOf (userSubjectRecordStore stores) t ∪ {[ns]}
            else if decide (t ∈ named users lk)
                 then nsOf (userSubjectRecordStore stores) t ∖ {[ns]}
                 else nsOf (userSubjectRecordStore stores) t)
  ∧ (keyed_by_subject (groupSubjectRecordStore stores) →
     ∀ t, nsOf (groupSubjectRecordStore r.1.2) t
          = if decide (t ∈ Groups review)
            then nsOf (groupSubjectRecordStore stores) t ∪ {[ns]}
            else if decide (t ∈ named groups lk)
                 then nsOf (groupSubjectRecordStore stores) t ∖ {[ns]}
                 else nsOf (groupSubjectRecordStore stores) t)
  ∧ r.2 = notifyWatchers ns lk (sets_NewString (Users review))
            (sets_NewString (Groups review)) (set_world w m)
  ∧ r.1.1 = (if bool_decide (0 < String.length (EvaluationError review))
             then Some (EvaluationError review) else None).
Proof.
  intros Hskip Hrev. cbv zeta. set (ns := namespace request) in *.
  assert (Hns : ∀ (u : SubjectStore) (known current toRemove : list string),
            keyed_by_subject u →
            (∀ x, x ∈ toRemove ↔ x ∈ known ∧ x ∉ current) →
            ∀ t, nsOf (addSubjectsToNamespace
                         (deleteNamespaceFromSubjects u toRemove ns) current ns) t
                 = if decide (t ∈ current) then nsOf u t ∪ {[ns]}
                   else if decide (t ∈ known) then nsOf u t ∖ {[ns]}
                        else nsOf u t).
  { intros u known current toRemove Hk Hrem t.
    destruct (deleteNamespaceFromSubjects_spec ns toRemove u Hk)
      as (Hk1 & _ & Hd).
    destruct (addSubjectsToNamespace_spec ns current _ Hk1) as (_ & _ & Ha).
    rewrite Ha, Hd. specialize (Hrem t).
    repeat case_decide; try done; naive_solver. }
  unfold syncRequest, lastKnown, Store.GetByKey. fold ns.
  destruct (reviewRecordStore stores !! ns) as [l|]; rewrite Hskip, Hrev; simpl.
  - split; [by case_bool_decide|].
    split.
    { intros Hk t.
      etrans; [|exact (Hns _ (users l) (Users review) _ Hk
                         (toRemove_elem_of _ _) t)].
      by case_bool_decide. }
    split.
    { intros Hk t.
      etrans; [|exact (Hns _ (groups l) (Groups review) _ Hk
                         (toRemove_elem_of _ _) t)].
      by case_bool_decide. }
    split; by case_bool_decide.
  - assert (Hnone : ∀ (current : list string) (x : string),
              x ∈ sets_List (sets_NewString [])
              ↔ x ∈ ([] : list string) ∧ x ∉ current).
    { intros current x. rewrite sets_List_empty_elem_of. set_solver. }
    split; [by case_bool_decide|].
    split.
    { intros Hk t.
      etrans; [|exact (Hns _ [] (Users review) _ Hk (Hnone _) t)].
      by case_bool_decide. }
    split.
    { intros Hk t.
      etrans; [|exact (Hns _ [] (Groups review) _ Hk (Hnone _) t)].
      by case_bool_decide. }
    split; by case_bool_decide.
Qed.
End Dispatch.
